(** * process_pdfs: the claim / download / extract / write-back engine

    A shallow embedding of [process_pdfs.py].  Python values are modelled
    as follows:

    - [str]   : a list of Unicode code points ([list N]);
    - [bytes] : a list of [Byte.byte];
    - the documents table : a finite map from the primary key [id] to a
      record of the remaining columns, nullable columns being [option]s;
    - exceptions : a sum type, [inl e] standing for [raise e];
    - the HTTP session, the PDF parser, the hash function, the few library
      string functions the code calls and the messages of the store's
      errors are parameters of the development. *)

From Stdlib Require Import ZArith NArith QArith String Ascii.
From stdpp Require Import base option list sorting gmap.

Local Open Scope Z_scope.

(** ** Python strings *)

Module PyStr.

Fixpoint str (s : string) : list N :=
  match s with
  | EmptyString => []
  | String a t => N_of_ascii a :: str t
  end.

(** The newline character, written [\n] in the source. *)
Definition nl : list N := [10%N].

(** [str.isspace] on one code point: the characters [str.strip()],
    [str.rstrip()] and [str.lstrip()] remove when called without
    argument. *)
Definition isspace (c : N) : bool :=
  ((9 <=? c) && (c <=? 13) || (28 <=? c) && (c <=? 32)
   || (c =? 133) || (c =? 160) || (c =? 5760)
   || (8192 <=? c) && (c <=? 8202)
   || (c =? 8232) || (c =? 8233) || (c =? 8239) || (c =? 8287)
   || (c =? 12288))%N.

Fixpoint lstrip (s : list N) : list N :=
  match s with
  | [] => []
  | c :: t => if isspace c then lstrip t else s
  end.

Definition rstrip (s : list N) : list N := rev (lstrip (rev s)).

Definition strip (s : list N) : list N := rstrip (lstrip s).

(** [sep.join(parts)] *)
Fixpoint join (sep : list N) (parts : list (list N)) : list N :=
  match parts with
  | [] => []
  | [p] => p
  | p :: rest => p ++ sep ++ join sep rest
  end.

(** [str(i)] for a non-negative integer. *)
Definition digit_char (d : nat) : N := 48 + N.of_nat d.

Fixpoint decimal_aux (fuel n : nat) (acc : list N) : list N :=
  match fuel with
  | O => acc
  | S fuel' =>
      let acc' := digit_char (n mod 10) :: acc in
      if (n / 10 =? 0)%nat then acc' else decimal_aux fuel' (n / 10) acc'
  end.

Definition str_of_nat (n : nat) : list N := decimal_aux (S n) n [].

(** [str.isdigit] on one character of a header value.  Header values
    are decoded as Latin-1, where the digits are 0-9 and the three
    superscripts. *)
Definition isdigit_char (c : N) : bool :=
  ((48 <=? c) && (c <=? 57) || (c =? 178) || (c =? 179) || (c =? 185))%N.

Definition isdigit (s : list N) : bool :=
  match s with
  | [] => false
  | _ => forallb isdigit_char s
  end.

Definition is_ascii_digit (c : N) : bool := ((48 <=? c) && (c <=? 57))%N.

(** [int(s)] on a string of digits: the superscripts are digits for
    [isdigit], but [int] rejects them ([None] stands for its
    ValueError). *)
Definition int_of_digits (s : list N) : option Z :=
  match s with
  | [] => None
  | _ =>
      if forallb is_ascii_digit s
      then Some (fold_left (fun acc c => 10 * acc + (Z.of_N c - 48)) s 0)
      else None
  end.

Fixpoint is_prefix (p s : list N) : bool :=
  match p, s with
  | [], _ => true
  | _ :: _, [] => false
  | a :: p', b :: s' => (a =? b)%N && is_prefix p' s'
  end.

(** [needle in hay] *)
Fixpoint contains (needle hay : list N) : bool :=
  is_prefix needle hay ||
  match hay with
  | [] => false
  | _ :: t => contains needle t
  end.

(** The last character of [s] is white space. *)
Definition ends_with_space (s : list N) : bool :=
  match rev s with
  | [] => false
  | c :: _ => isspace c
  end.

End PyStr.
Import PyStr.

Abbreviation pystr := (list N).
Abbreviation pybytes := (list Byte.byte).

(** ** Exceptions *)

Inductive exn_class : Type :=
| ValueError
| PdfReadError
| PdfReadErrorSubclass (name : pystr)  (* FileNotDecryptedError, ... *)
| IntegrityError
| SQLAlchemyError (name : pystr)   (* the other subclasses of SQLAlchemyError *)
| OtherException (name : pystr).   (* every other subclass of Exception *)

Record exn : Type := Exn { exn_type : exn_class; exn_msg : pystr }.

(** [type(e).__name__] *)
Definition type_name (c : exn_class) : pystr :=
  match c with
  | ValueError => str "ValueError"
  | PdfReadError => str "PdfReadError"
  | PdfReadErrorSubclass name => name
  | IntegrityError => str "IntegrityError"
  | SQLAlchemyError name => name
  | OtherException name => name
  end.

(** [except PdfReadError] catches the class and its subclasses. *)
Definition is_PdfReadError (c : exn_class) : bool :=
  match c with
  | PdfReadError | PdfReadErrorSubclass _ => true
  | _ => false
  end.


(** ** Settings *)

(** The module-level settings the engine reads.  [MAX_PDF_MB] is a float in
    the source; a float is a rational number, and the two operations applied
    to it (a product by 2^20, a comparison with a quotient by 2^20) are exact
    on it. *)
Record Settings : Type := {
  BATCH_SIZE : Z;
  MAX_PDF_MB : Q;
  MAX_ATTEMPTS : Z;
}.

(** ** The HTTP client and the libraries *)

(** The response headers the code reads; [None] is an absent header. *)
Record Headers : Type := {
  content_type : option pystr;
  content_length : option pystr;
  content_disposition : option pystr;
}.

Definition no_headers : Headers :=
  {| content_type := None; content_length := None;
     content_disposition := None |}.

(** A response: the chunks [iter_content] yields, followed by the exception
    it raises, if the transfer breaks. *)
Record Response : Type := {
  status_code : nat;
  reason : pystr;
  resp_url : pystr;
  headers : Headers;
  body : list pybytes;
  body_error : option exn;
}.

(** What the loop over [reader.pages] meets at one position. *)
Inductive page : Type :=
| Missing (exc : exn)       (* [reader.pages] raises instead of yielding *)
| Undecodable (exc : exn)   (* the page's [extract_text()] raises *)
| Text (t : option pystr).  (* the page's [extract_text()] returns [t] *)

(** A document [PdfReader] has opened. *)
Inductive document : Type :=
| Unlisted (exc : exn)      (* [len(reader.pages)] raises *)
| Pages (pages : list page).

(** A parameter bound to a statement. *)
Inductive sql_value : Type :=
| SqlNull
| SqlInt (n : Z)
| SqlText (s : pystr)
| SqlId (id : N).

Record World : Type := {
  (** [sess.head(url, ...)] and [sess.get(url, ..., stream=True)]: what
      the call on the session returns or raises, the adapter's retries and
      the redirects being inside the call *)
  sess_head : pystr -> exn + Response;
  sess_get : pystr -> exn + Response;
  (** [PdfReader(io.BytesIO(pdf_bytes))] *)
  PdfReader : pybytes -> exn + document;
  (** [hashlib.sha256(data).hexdigest()] *)
  sha256_hexdigest : pybytes -> pystr;
  (** [re.search(r'filename\*?=...', cd, flags=re.I)], group 1 *)
  re_search_filename : pystr -> option pystr;
  unquote : pystr -> pystr;
  urlparse_path : pystr -> pystr;
  basename : pystr -> pystr;
  lower : pystr -> pystr;
  (** [f"{mb:.1f}"] and [f"{MAX_PDF_MB}"] *)
  format_1f : Q -> pystr;
  format_float : Q -> pystr;
  (** the message of the store's unique violation on [sha256] *)
  unique_violation : pystr -> pystr;
  (** [str(e)] for the DataError an UPDATE with these parameters raises,
      from the message of the driver or of the store *)
  data_error : pystr -> list sql_value -> pystr;
  (** [now()] in the transaction of batch [batch_no] *)
  now : Z -> Z;
  (** the row locks other transactions hold while batch [batch_no] claims *)
  row_locks : Z -> gmap N nat;
}.

(** Python's truth value of an optional string: [None] and [""] are false. *)
Definition truthy (s : option pystr) : bool :=
  match s with
  | Some (_ :: _) => true
  | _ => false
  end.

(** [a or b] on optional strings *)
Definition or_else (a b : option pystr) : option pystr :=
  if truthy a then a else b.

(** [text or ""] *)
Definition or_empty (t : option pystr) : pystr :=
  match t with
  | Some s => s
  | None => []
  end.

(** ** Downloader *)

(** The [meta] dictionary of [download_pdf]. *)
Record Meta : Type := {
  meta_mime : option pystr;
  meta_filename : option pystr;
  meta_content_length : option Z;
  meta_headers : Headers;
}.

(** The calls the downloader makes on the session and on the response it
    streams, in order. *)
Inductive event : Type :=
| EvHead (url : pystr)  (* a call of [sess.head(url, ...)] *)
| EvGet (url : pystr)   (* a call of [sess.get(url, ...)] *)
| EvRead (n : nat).     (* a chunk of [n] bytes taken from the body *)

Record dl_state : Type := { meta : Meta; trace : list event }.

(** Computations of the downloader: they update [meta] in place, call the
    session, and return or raise. *)
Definition DL (A : Type) : Type := dl_state -> dl_state * (exn + A).

Module DLMonad.

Definition ret {A} (x : A) : DL A := fun s => (s, inr x).

Definition bind {A B} (m : DL A) (k : A -> DL B) : DL B :=
  fun s =>
    match m s with
    | (s', inl e) => (s', inl e)
    | (s', inr x) => k x s'
    end.

Definition raise {A} (e : exn) : DL A := fun s => (s, inl e).

Definition lift {A} (r : exn + A) : DL A := fun s => (s, r).

(** [try: body / except Exception: pass]: the updates of [meta] made
    before the exception stay. *)
Definition try_pass (body : DL unit) : DL unit :=
  fun s =>
    match body s with
    | (s', _) => (s', inr tt)
    end.

Definition emit (e : event) : DL unit :=
  fun s => ({| meta := meta s; trace := trace s ++ [e] |}, inr tt).

Definition get_meta : DL Meta := fun s => (s, inr (meta s)).

Definition put_meta (m : Meta) : DL unit :=
  fun s => ({| meta := m; trace := trace s |}, inr tt).

Definition modify (f : Meta -> Meta) : DL unit :=
  bind get_meta (fun m => put_meta (f m)).

Definition when (b : bool) (m : DL unit) : DL unit :=
  if b then m else ret tt.

End DLMonad.
Import DLMonad.

#[global] Instance DL_ret : MRet DL := @ret.
#[global] Instance DL_bind : MBind DL := fun A B k m => bind m k.

Definition set_mime (v : option pystr) (m : Meta) : Meta :=
  {| meta_mime := v; meta_filename := meta_filename m;
     meta_content_length := meta_content_length m;
     meta_headers := meta_headers m |}.

Definition set_filename (v : option pystr) (m : Meta) : Meta :=
  {| meta_mime := meta_mime m; meta_filename := v;
     meta_content_length := meta_content_length m;
     meta_headers := meta_headers m |}.

Definition set_content_length (v : option Z) (m : Meta) : Meta :=
  {| meta_mime := meta_mime m; meta_filename := meta_filename m;
     meta_content_length := v; meta_headers := meta_headers m |}.

Definition set_headers (v : Headers) (m : Meta) : Meta :=
  {| meta_mime := meta_mime m; meta_filename := meta_filename m;
     meta_content_length := meta_content_length m; meta_headers := v |}.

Definition empty_meta : Meta :=
  {| meta_mime := None; meta_filename := None; meta_content_length := None;
     meta_headers := no_headers |}.

(** [int(cl) / (1024 * 1024)] *)
Definition megabytes (n : Z) : Q := inject_Z n / inject_Z (1024 * 1024).

(** [int(MAX_PDF_MB * 1024 * 1024)]: [int] truncates towards zero. *)
Definition byte_cap (cfg : Settings) : Z :=
  Z.quot (Qnum (MAX_PDF_MB cfg) * (1024 * 1024))
         (Z.pos (Qden (MAX_PDF_MB cfg))).

(** [x > y] on floats *)
Definition Qgtb (x y : Q) : bool := negb (Qle_bool x y).

(** [response.raise_for_status()] *)
Definition raise_for_status (r : Response) : DL unit :=
  let msg (kind : string) :=
    str_of_nat (status_code r) ++ str kind ++ reason r
    ++ str " for url: " ++ resp_url r in
  if ((400 <=? status_code r) && (status_code r <? 500))%nat then
    raise (Exn (OtherException (str "HTTPError")) (msg " Client Error: "%string))
  else if ((500 <=? status_code r) && (status_code r <? 600))%nat then
    raise (Exn (OtherException (str "HTTPError")) (msg " Server Error: "%string))
  else ret tt.

Section Downloader.

Variable W : World.
Variable cfg : Settings.

Definition guess_filename (url : pystr) (cd : option pystr)
    : option pystr :=
  let from_url :=
    let path := urlparse_path W url in
    match path with
    | [] => None
    | _ =>
        let name := basename W path in
        match name with
        | [] => None
        | _ => Some (unquote W name)
        end
    end in
  if truthy cd then
    match re_search_filename W (or_empty cd) with
    | Some g => Some (strip (unquote W g))
    | None => from_url
    end
  else from_url.

(** The body of the [try] around the HEAD request. *)
Definition head_probe (url : pystr) : DL unit :=
  emit (EvHead url);;
  h ← lift (sess_head W url);
  modify (set_headers (headers h));;
  modify (set_mime (content_type (headers h)));;
  let cl := content_length (headers h) in
  when (truthy cl && isdigit (or_empty cl))
    (match int_of_digits (or_empty cl) with
     | None =>
         raise (Exn ValueError
                  (str "invalid literal for int() with base 10"))
     | Some n =>
         modify (set_content_length (Some n));;
         let mb := megabytes n in
         when (Qgtb mb (MAX_PDF_MB cfg))
           (raise (Exn ValueError
                     (str "PDF too large (HEAD): ~" ++ format_1f W mb
                      ++ str " MB > " ++ format_float W (MAX_PDF_MB cfg)
                      ++ str " MB")))
     end);;
  modify (set_filename
            (guess_filename url (content_disposition (headers h)))).

(** The body of [for chunk in r.iter_content(...)], with [buf] and [read]
    as accumulators: the result is [(buf.getvalue(), read)]. *)
Fixpoint read_chunks (cap : Z) (chunks : list pybytes) (err : option exn)
    (buf : pybytes) (read : Z) : DL (pybytes * Z) :=
  match chunks with
  | [] =>
      match err with
      | Some e => raise e
      | None => ret (buf, read)
      end
  | chunk :: rest =>
      match chunk with
      | [] => read_chunks cap rest err buf read        (* continue *)
      | _ =>
          emit (EvRead (length chunk));;
          let buf := buf ++ chunk in
          let read := read + Z.of_nat (length chunk) in
          if read >? cap then
            raise (Exn ValueError
                     (str "PDF too large (GET): exceeded "
                      ++ format_float W (MAX_PDF_MB cfg) ++ str " MB cap"))
          else read_chunks cap rest err buf read
      end
  end.

(** [download_pdf] as a computation on [meta] and the session. *)
Definition download_pdf_body (url : pystr) : DL (pybytes * Meta) :=
  (* HEAD (best-effort) *)
  try_pass (head_probe url);;
  emit (EvGet url);;
  r ← lift (sess_get W url);
  raise_for_status r;;
  (* If HEAD didn't give filename, try GET headers *)
  m ← get_meta;
  when (negb (truthy (meta_filename m)))
    (modify (set_filename
               (guess_filename url (content_disposition (headers r)))));;
  (* Prefer GET content-type *)
  modify (fun m => set_mime (or_else (content_type (headers r))
                                     (meta_mime m)) m);;
  m ← get_meta;
  when (truthy (meta_mime m)
        && negb (contains (str "pdf") (lower W (or_empty (meta_mime m)))))
    (raise (Exn ValueError
              (str "Unexpected content-type: " ++ or_empty (meta_mime m))));;
  let cap := byte_cap cfg in
  '(data, read) ← read_chunks cap (body r) (body_error r) [] 0;
  modify (fun m =>
    set_content_length
      (if read =? 0 then
         if Z.of_nat (length data) =? 0 then meta_content_length m
         else Some (Z.of_nat (length data))
       else Some read) m);;
  m ← get_meta;
  mret (data, m).

(** [download_pdf(sess, url)], together with the calls it made. *)
Definition download_pdf_traced (url : pystr)
    : list event * (exn + pybytes * Meta) :=
  let '(s, r) := download_pdf_body url {| meta := empty_meta; trace := [] |} in
  (trace s, r).

Definition download_pdf (url : pystr) : exn + pybytes * Meta :=
  snd (download_pdf_traced url).

End Downloader.

(** A computation that only adds to the trace of calls. *)
Definition grows {A} (m : DL A) : Prop :=
  forall s, exists tr, trace (fst (m s)) = trace s ++ tr.

(** ** TextExtractor *)

(** The marker appended to [out_lines] between two pages. *)
Definition PAGE_BREAK : pystr :=
  nl ++ nl ++ str "----- PAGE BREAK -----" ++ nl ++ nl.

(** The body of [for i, page in enumerate(reader.pages, start=1)], with
    [out_lines] as accumulator.  Only [page.extract_text()] is inside the
    [try]: what the iteration itself raises goes through as it is. *)
Fixpoint extract_pages (total_pages i : nat)
    (pages : list page) (out_lines : list pystr)
    : exn + list pystr :=
  match pages with
  | [] => inr out_lines
  | pg :: rest =>
      match pg with
      | Missing exc => inl exc
      | Undecodable exc =>
          if is_PdfReadError (exn_type exc) then
            inl (Exn ValueError
                   (str "Failed to extract text on page " ++ str_of_nat i
                    ++ str ": " ++ exn_msg exc))
          else inl exc
      | Text t =>
          let text := or_empty t in
          let out_lines := out_lines ++ [rstrip text] in
          let out_lines :=
            if (i <? total_pages)%nat then out_lines ++ [PAGE_BREAK]
            else out_lines in
          extract_pages total_pages (S i) rest out_lines
      end
  end.

Definition extract_text (W : World) (pdf_bytes : pybytes) : exn + pystr :=
  match pdf_bytes with
  | [] => inr []
  | _ =>
      match PdfReader W pdf_bytes with
      | inl exc =>
          if is_PdfReadError (exn_type exc) then
            inl (Exn ValueError (str "Failed to read PDF: " ++ exn_msg exc))
          else inl exc
      | inr (Unlisted exc) => inl exc      (* [len(reader.pages)], no [try] *)
      | inr (Pages pages) =>
          let total_pages := length pages in
          match extract_pages total_pages 1 pages [] with
          | inl e => inl e
          | inr out_lines => inr (strip (join nl out_lines))
          end
      end
  end.

(** What the loop raises at a page it does not get a text from, [i] being
    the number of the page. *)
Definition page_failure (i : nat) (pg : page) : option exn :=
  match pg with
  | Missing e => Some e
  | Undecodable e =>
      Some (if is_PdfReadError (exn_type e)
            then Exn ValueError
                     (str "Failed to extract text on page " ++ str_of_nat i
                      ++ str ": " ++ exn_msg e)
            else e)
  | Text _ => None
  end.

(** [out_lines] after the loop, for pages that all decode: each page text
    without its trailing white space, and the marker between two pages. *)
Fixpoint page_lines (texts : list (option pystr)) : list pystr :=
  match texts with
  | [] => []
  | [t] => [rstrip (or_empty t)]
  | t :: rest => rstrip (or_empty t) :: PAGE_BREAK :: page_lines rest
  end.

(** The string that ends up between two consecutive page texts: the marker
    with the newline that [join] puts on each side of it. *)
Definition PAGE_SEPARATOR : pystr := nl ++ PAGE_BREAK ++ nl.

(** The extractor as the specification words it: the page texts joined by
    a separator, the whole trimmed. *)
Definition joined_and_trimmed (sep : pystr) (texts : list pystr) : pystr :=
  strip (join sep texts).

(** ** Fingerprinter *)

Definition sha256_hex (W : World) (data : pybytes) : pystr :=
  sha256_hexdigest W data.

(** ** The documents table *)

(** One row, without its primary key [id]. *)
Record Row : Type := {
  pdf_url : option pystr;
  raw_text : option pystr;
  processed : option bool;
  process_attempts : Z;
  processed_at : option Z;
  last_error : option pystr;
  downloaded_at : option Z;
  bytes : option Z;
  mime : option pystr;
  filename : option pystr;
  sha256 : option pystr;
}.

(** The table: rows by [id]. *)
Abbreviation Table := (gmap N Row).

(** SQL's [COALESCE(a, b)] *)
Definition COALESCE {A} (a b : option A) : option A :=
  match a with
  | Some _ => a
  | None => b
  end.

(** The unique index on [sha256]: another row already carries [sha]. *)
Definition sha256_taken (tbl : Table) (doc_id : N) (sha : pystr) : bool :=
  existsb (fun p => negb (fst p =? doc_id)%N
                    && bool_decide (sha256 (snd p) = Some sha))
          (map_to_list tbl).

(** [process_attempts] of the row [id], if there is one. *)
Definition attempts_of (tbl : Table) (id : N) : option Z :=
  process_attempts <$> tbl !! id.

(** ** OutcomeWriter *)

(** The largest value of an [int] column. *)
Definition INT_MAX : Z := 2147483647.

(** [meta.get(key)] as a parameter: [None] is sent as NULL. *)
Definition sql_text (v : option pystr) : sql_value :=
  match v with
  | Some s => SqlText s
  | None => SqlNull
  end.

(** A text parameter with the character U+0000, which the driver refuses
    to send. *)
Definition holds_nul (v : sql_value) : bool :=
  match v with
  | SqlText s => existsb (N.eqb 0) s
  | _ => false
  end.

(** sqlalchemy.exc.DataError, a subclass of SQLAlchemyError. *)
Definition DataError (W : World) (cause : string) (params : list sql_value)
    : exn :=
  Exn (SQLAlchemyError (str "DataError")) (data_error W (str cause) params).

Definition nul_refused : string :=
  "PostgreSQL text fields cannot contain NUL (0x00) bytes".

Definition out_of_range : string := "integer out of range".

(** The SET list of [mark_success], applied to the row it matches. *)
Definition success_row (now_ : Z) (text_out : pystr) (m : Meta)
    (pdf_bytes : pybytes) (sha_digest : pystr) (r : Row) : Row :=
  {| pdf_url := pdf_url r;
     raw_text := Some text_out;
     processed := Some true;
     processed_at := Some now_;
     process_attempts := process_attempts r + 1;
     last_error := None;
     downloaded_at := COALESCE (downloaded_at r) (Some now_);
     bytes := Some (Z.of_nat (length pdf_bytes));
     mime := meta_mime m;
     filename := COALESCE (filename r) (meta_filename m);
     sha256 := Some sha_digest |}.

(** The dictionary [mark_success] binds to its statement. *)
Definition success_params (doc_id : N) (text_out : pystr) (m : Meta)
    (pdf_bytes : pybytes) (sha_digest : pystr) : list sql_value :=
  [SqlId doc_id; SqlText text_out; SqlInt (Z.of_nat (length pdf_bytes));
   sql_text (meta_mime m); sql_text (meta_filename m); SqlText sha_digest].

(** [mark_success]: the UPDATE changes the row [doc_id], or raises and
    changes nothing.  It raises DataError when a text parameter holds
    U+0000, when the number of bytes does not fit the [int] column [bytes]
    or [process_attempts + 1] does not fit its own, and IntegrityError
    when the new [sha256] is taken. *)
Definition mark_success (W : World) (now_ : Z) (tbl : Table) (doc_id : N)
    (text_out : pystr) (m : Meta) (pdf_bytes : pybytes) (sha_digest : pystr)
    : exn + Table :=
  let params := success_params doc_id text_out m pdf_bytes sha_digest in
  if existsb holds_nul params then inl (DataError W nul_refused params)
  else if INT_MAX <? Z.of_nat (length pdf_bytes) then
    inl (DataError W out_of_range params)
  else
    match tbl !! doc_id with
    | None => inr tbl
    | Some r =>
        if INT_MAX <? process_attempts r + 1 then
          inl (DataError W out_of_range params)
        else if sha256_taken tbl doc_id sha_digest then
          inl (Exn IntegrityError (unique_violation W sha_digest))
        else
          inr (<[doc_id := success_row now_ text_out m pdf_bytes sha_digest r]>
                 tbl)
    end.

(** The SET list of [mark_failure]; [err] is already cut to 800
    characters. *)
Definition failure_row (err : pystr) (r : Row) : Row :=
  {| pdf_url := pdf_url r;
     raw_text := raw_text r;
     processed := Some false;
     processed_at := processed_at r;
     process_attempts := process_attempts r + 1;
     last_error := Some err;
     downloaded_at := downloaded_at r;
     bytes := bytes r;
     mime := mime r;
     filename := filename r;
     sha256 := sha256 r |}.

(** [mark_failure]: the UPDATE changes the row [doc_id], or raises
    DataError and changes nothing when the message as cut holds U+0000 or
    [process_attempts + 1] does not fit the [int] column. *)
Definition mark_failure (W : World) (tbl : Table) (doc_id : N)
    (err_msg : pystr) : exn + Table :=
  let params := [SqlId doc_id; SqlText (take 800 err_msg)] in
  if existsb holds_nul params then inl (DataError W nul_refused params)
  else
    match tbl !! doc_id with
    | None => inr tbl
    | Some r =>
        if INT_MAX <? process_attempts r + 1 then
          inl (DataError W out_of_range params)
        else inr (<[doc_id := failure_row (take 800 err_msg) r]> tbl)
    end.

(** [with conn.begin_nested(): stmt]: a savepoint.  When the statement
    raises, the table is rolled back to the savepoint and the exception
    goes on to the caller. *)
Definition begin_nested (stmt : Table -> exn + Table) (tbl : Table)
    : Table * option exn :=
  match stmt tbl with
  | inl e => (tbl, Some e)
  | inr tbl' => (tbl', None)
  end.

(** ** BatchClaimer *)

(** The WHERE clause of [fetch_batch]. *)
Definition eligible (cfg : Settings) (r : Row) : bool :=
  negb (bool_decide (processed r = Some true))
  && bool_decide (pdf_url r <> None)
  && (process_attempts r <? MAX_ATTEMPTS cfg).

Definition by_id (a b : N * Row) : Prop := (fst a <= fst b)%N.

#[global] Instance by_id_dec a b : Decision (by_id a b) :=
  decide (fst a <= fst b)%N.

(** The rows the WHERE clause keeps, in the order of ORDER BY id. *)
Definition candidates (cfg : Settings) (tbl : Table) : list (N * Row) :=
  merge_sort by_id (List.filter (fun p => eligible cfg (snd p))
                                (map_to_list tbl)).

(** The SELECT list: [id, pdf_url]. *)
Definition select_id_url (p : N * Row) : N * option pystr :=
  (fst p, pdf_url (snd p)).

(** A row lock of another transaction. *)
Definition locked_by_other (me : nat) (locks : gmap N nat) (id : N) : bool :=
  match locks !! id with
  | Some w => negb (w =? me)%nat
  | None => false
  end.

(** The backlog of worker [me]: the candidates no other transaction has
    locked. *)
Definition claimable (cfg : Settings) (me : nat) (locks : gmap N nat)
    (tbl : Table) : list (N * Row) :=
  List.filter (fun p => negb (locked_by_other me locks (fst p)))
              (candidates cfg tbl).

(** FOR UPDATE SKIP LOCKED LIMIT n over the candidates: a row locked by
    another transaction is passed over, any other row is locked and
    returned, until [limit] rows are returned. *)
Fixpoint lock_rows (me : nat) (limit : nat) (locks : gmap N nat)
    (cands : list (N * Row)) : list (N * option pystr) * gmap N nat :=
  match limit, cands with
  | O, _ => ([], locks)
  | _, [] => ([], locks)
  | S k, (id, r) :: rest =>
      if locked_by_other me locks id then lock_rows me limit locks rest
      else
        let '(rows, locks') := lock_rows me k (<[id := me]> locks) rest in
        ((id, pdf_url r) :: rows, locks')
  end.

(** [fetch_batch(conn)] in the transaction of worker [me]: the rows
    [(id, pdf_url)] it returns and the row locks afterwards.  The store
    rejects a negative LIMIT. *)
Definition fetch_batch (cfg : Settings) (me : nat) (locks : gmap N nat)
    (tbl : Table) : exn + list (N * option pystr) * gmap N nat :=
  if BATCH_SIZE cfg <? 0 then
    inl (Exn (SQLAlchemyError (str "DataError"))
             (str "LIMIT must not be negative"))
  else
    inr (lock_rows me (Z.to_nat (BATCH_SIZE cfg)) locks (candidates cfg tbl)).

(** *** Concurrent claims

    The store runs a claim row by row: the scan of a transaction takes the
    next candidate, and either passes over it (another transaction holds
    its lock) or locks and returns it.  Scans of several transactions
    interleave at this grain; the lock table is shared. *)

Record scan : Type := {
  pending : list (N * Row);              (* candidates not yet visited *)
  room : nat;                            (* what is left of the LIMIT *)
  claimed : list (N * option pystr);     (* the rows returned so far *)
}.

Definition scan_done (s : scan) : bool :=
  match room s, pending s with
  | O, _ => true
  | _, [] => true
  | _, _ => false
  end.

(** One step of the scan of worker [me]. *)
Definition scan_step (me : nat) (locks : gmap N nat) (s : scan)
    : gmap N nat * scan :=
  match room s, pending s with
  | O, _ => (locks, s)
  | _, [] => (locks, s)
  | S k, (id, r) :: rest =>
      if locked_by_other me locks id then
        (locks, {| pending := rest; room := S k; claimed := claimed s |})
      else
        (<[id := me]> locks,
         {| pending := rest; room := k;
            claimed := claimed s ++ [(id, pdf_url r)] |})
  end.

(** A claim request, before its first step. *)
Definition start_scan (cfg : Settings) (tbl : Table) : scan :=
  {| pending := candidates cfg tbl;
     room := Z.to_nat (BATCH_SIZE cfg);
     claimed := [] |}.

(** The store with several claims in flight: the lock table and the scan
    of each worker. *)
Record claims : Type := {
  locks : gmap N nat;
  scans : gmap nat scan;
}.

(** Worker [w] moves. *)
Definition claims_step (c : claims) (w : nat) : claims :=
  match scans c !! w with
  | None => c
  | Some s =>
      let '(l', s') := scan_step w (locks c) s in
      {| locks := l'; scans := <[w := s']> (scans c) |}
  end.

(** A schedule: which worker moves at each step. *)
Definition run_schedule (c : claims) (sched : list nat) : claims :=
  fold_left claims_step sched c.

Definition ids {A} (rows : list (N * A)) : list N := map fst rows.

(** The claim requests of [workers], issued on the committed table [tbl]
    while the row locks are [locks0]. *)
Definition start_claims (cfg : Settings) (tbl : Table)
    (locks0 : gmap N nat) (workers : gset nat) : claims :=
  {| locks := locks0;
     scans := gset_to_gmap (start_scan cfg tbl) workers |}.

(** The rows worker [w] has been given so far. *)
Definition result_of (c : claims) (w : nat) : list (N * option pystr) :=
  match scans c !! w with
  | Some s => claimed s
  | None => []
  end.

(** The claim of worker [w] has returned. *)
Definition finished (c : claims) (w : nat) : bool :=
  match scans c !! w with
  | Some s => scan_done s
  | None => true
  end.

(** Every row a worker was given is locked by that worker. *)
Definition owns_its_rows (c : claims) : Prop :=
  forall w s id, scans c !! w = Some s -> id ∈ ids (claimed s) ->
                 locks c !! id = Some w.

(** The candidates the scan may still have to visit. *)
Definition to_visit (s : scan) : nat :=
  if scan_done s then O else length (pending s).

(** ** Orchestrator *)

Record batch_state : Type := {
  table : Table;
  success : Z;
  failures : Z;
}.

(** [f"{type(e).__name__}: {e}"] *)
Definition error_text (e : exn) : pystr :=
  type_name (exn_type e) ++ str ": " ++ exn_msg e.

Section Orchestrator.

Variable W : World.
Variable cfg : Settings.
Variable me : nat.

(** The first [try] of the row loop: download, extract, fingerprint. *)
Definition fetch_and_extract (url : option pystr)
    : exn + (pybytes * Meta * pystr * pystr) :=
  match url with
  | None =>
      inl (Exn (OtherException (str "MissingSchema")) (str "Invalid URL"))
  | Some u =>
      match download_pdf W cfg u with
      | inl e => inl e
      | inr (pdf_bytes, m) =>
          match extract_text W pdf_bytes with
          | inl e => inl e
          | inr text_out =>
              inr (pdf_bytes, m, text_out, sha256_hex W pdf_bytes)
          end
      end
  end.

(** [mark_failure] in its savepoint, then [failures += 1].  No [try] is
    around it: what it raises ends the batch. *)
Definition record_failure (st : batch_state) (doc_id : N) (err : pystr)
    : exn + batch_state :=
  match begin_nested (fun t => mark_failure W t doc_id err) (table st) with
  | (_, Some e) => inl e
  | (t, None) =>
      inr {| table := t; success := success st;
             failures := failures st + 1 |}
  end.

(** One turn of [for (doc_id, url) in rows]. *)
Definition process_row (now_ : Z) (st : batch_state)
    (row : N * option pystr) : exn + batch_state :=
  let '(doc_id, url) := row in
  match fetch_and_extract url with
  | inl e => record_failure st doc_id (error_text e)
  | inr (pdf_bytes, m, text_out, sha_digest) =>
      match begin_nested
              (fun t => mark_success W now_ t doc_id text_out m pdf_bytes
                                     sha_digest)
              (table st) with
      | (t, None) =>
          inr {| table := t; success := success st + 1;
                 failures := failures st |}
      | (t, Some ie) =>
          let st' := {| table := t; success := success st;
                        failures := failures st |} in
          match exn_type ie with
          | IntegrityError =>
              record_failure st' doc_id
                (str "IntegrityError: " ++ exn_msg ie)
          | SQLAlchemyError _ =>
              record_failure st' doc_id
                (str "SQLAlchemyError: " ++ exn_msg ie)
          | _ => inl ie
          end
      end
  end.

Fixpoint process_rows (now_ : Z) (st : batch_state)
    (rows : list (N * option pystr)) : exn + batch_state :=
  match rows with
  | [] => inr st
  | row :: rest =>
      match process_row now_ st row with
      | inl e => inl e
      | inr st' => process_rows now_ st' rest
      end
  end.

(** [process_once(sess, batch_no)] on the committed table [tbl]: an
    exception (the outer transaction is rolled back), or the table as
    committed and [(len(rows), success, failures)]. *)
Definition process_once (batch_no : Z) (tbl : Table)
    : exn + Table * (Z * Z * Z) :=
  match fetch_batch cfg me (row_locks W batch_no) tbl with
  | inl e => inl e
  | inr (rows, _) =>
      match rows with
      | [] => inr (tbl, (0, 0, 0))
      | _ =>
          match process_rows (now W batch_no)
                  {| table := tbl; success := 0; failures := 0 |} rows with
          | inl e => inl e
          | inr st =>
              inr (table st,
                   (Z.of_nat (length rows), success st, failures st))
          end
      end
  end.

(** What a run leaves: the table, the counters of [main], and the number
    of rows each claim returned, in order. *)
Record run : Type := {
  final_table : Table;
  batch_no_ : Z;
  total_rows : Z;
  total_success : Z;
  total_failures : Z;
  batch_sizes : list Z;
}.

(** The [while True] loop of [main]; [fuel] bounds the number of turns. *)
Fixpoint main_loop (fuel : nat) (tbl : Table)
    (batch_no total_rows_ total_success_ total_failures_ : Z)
    (sizes : list Z) : option (exn + run) :=
  match fuel with
  | O => None
  | S fuel' =>
      let batch_no := batch_no + 1 in
      match process_once batch_no tbl with
      | inl e => Some (inl e)
      | inr (tbl', (processed_n, success_n, failures_n)) =>
          let sizes := sizes ++ [processed_n] in
          if processed_n =? 0 then
            Some (inr {| final_table := tbl'; batch_no_ := batch_no;
                         total_rows := total_rows_;
                         total_success := total_success_;
                         total_failures := total_failures_;
                         batch_sizes := sizes |})
          else
            let total_rows_ := total_rows_ + processed_n in
            let total_success_ := total_success_ + success_n in
            let total_failures_ := total_failures_ + failures_n in
            if processed_n <? BATCH_SIZE cfg then
              Some (inr {| final_table := tbl'; batch_no_ := batch_no;
                           total_rows := total_rows_;
                           total_success := total_success_;
                           total_failures := total_failures_;
                           batch_sizes := sizes |})
            else
              main_loop fuel' tbl' batch_no total_rows_ total_success_
                        total_failures_ sizes
      end
  end.

Definition main (fuel : nat) (tbl : Table) : option (exn + run) :=
  main_loop fuel tbl 0 0 0 0 [].

End Orchestrator.

(** *** A measure of the work left

    The attempts a row has left while it is eligible, and their sum over
    the table: every outcome written to a claimed row takes at least one
    away. *)

Definition attempts_left (cfg : Settings) (r : Row) : nat :=
  if eligible cfg r then Z.to_nat (MAX_ATTEMPTS cfg - process_attempts r)
  else O.

Definition work_left (cfg : Settings) (tbl : Table) : nat :=
  map_fold (fun _ r acc => (attempts_left cfg r + acc)%nat) O tbl.

(** ** Sample inputs *)

Module Sample.

Definition unreachable : exn :=
  Exn (OtherException (str "ConnectionError")) (str "connection refused").

(** A stand-in for the hash function: the bytes, as characters. *)
Definition digest (data : pybytes) : pystr := map Byte.to_N data.

(** A world given by its servers and its parser; the library string
    functions are stand-ins that change nothing. *)
Definition world (head get : pystr -> exn + Response)
    (reader : pybytes -> exn + document) : World :=
  {| sess_head := head;
     sess_get := get;
     PdfReader := reader;
     sha256_hexdigest := digest;
     re_search_filename := fun _ => None;
     unquote := fun s => s;
     urlparse_path := fun s => s;
     basename := fun s => s;
     lower := fun s => s;
     format_1f := fun _ => str "?";
     format_float := fun _ => str "?";
     unique_violation := fun _ =>
       str "duplicate key value violates unique constraint";
     data_error := fun cause _ => str "(psycopg.DataError) " ++ cause;
     now := fun batch_no => 1000 + batch_no;
     row_locks := fun _ => ∅ |}.

(** A world whose session is unreachable and whose parser finds the given
    pages. *)
Definition reader_world (pages : list page) : World :=
  world (fun _ => inl unreachable) (fun _ => inl unreachable)
        (fun _ => inr (Pages pages)).

Definition cfg : Settings :=
  {| BATCH_SIZE := 200; MAX_PDF_MB := 30; MAX_ATTEMPTS := 5 |}.

Definition pdf_headers (cl : option pystr) : Headers :=
  {| content_type := Some (str "application/pdf");
     content_length := cl;
     content_disposition := None |}.

Definition ok_response (url : pystr) (cl : option pystr)
    (chunks : list pybytes) : Response :=
  {| status_code := 200; reason := str "OK"; resp_url := url;
     headers := pdf_headers cl; body := chunks; body_error := None |}.

Definition tiny_pdf : pybytes := [Byte.x25; Byte.x50; Byte.x44; Byte.x46].

(** A server whose HEAD declares 40 MB and whose GET sends four bytes. *)
Definition oversize_world : World :=
  world (fun url => inr (ok_response url (Some (str "41943040")) []))
        (fun url => inr (ok_response url None [tiny_pdf]))
        (fun _ => inr (Pages [Text (Some (str "Hello"));
                              Text (Some (str "World"))])).

(** A server that sends the same four bytes for every URL. *)
Definition same_bytes_world : World :=
  world (fun url => inr (ok_response url (Some (str "4")) []))
        (fun url => inr (ok_response url (Some (str "4")) [tiny_pdf]))
        (fun _ => inr (Pages [Text (Some (str "Hello"));
                              Text (Some (str "World"))])).

(** A row as it is created: only [pdf_url] is set. *)
Definition fresh_row (url : pystr) : Row :=
  {| pdf_url := Some url; raw_text := None; processed := Some false;
     process_attempts := 0; processed_at := None; last_error := None;
     downloaded_at := None; bytes := None; mime := None; filename := None;
     sha256 := None |}.

(** A row that was processed once, at time 7. *)
Definition done_row (url : pystr) : Row :=
  {| pdf_url := Some url; raw_text := Some (str "text");
     processed := Some true; process_attempts := 1;
     processed_at := Some 7; last_error := None;
     downloaded_at := Some 7; bytes := Some 4;
     mime := Some (str "application/pdf");
     filename := Some (str "a.pdf"); sha256 := Some (digest tiny_pdf) |}.

(** A backlog of [n] fresh rows, with ids 1 to [n]. *)
Definition backlog (n : nat) : Table :=
  list_to_map
    (map (fun i => (N.of_nat i, fresh_row (str "http://host/" ++ str_of_nat i)))
         (seq 1 n)).

Definition two_rows : Table :=
  list_to_map [(1%N, fresh_row (str "http://host/a"));
               (2%N, fresh_row (str "http://host/b"))].

End Sample.

(** ** The download after the probe *)

(** The first character of [s] is white space. *)
Definition starts_with_space (s : pystr) : bool :=
  match s with
  | [] => false
  | c :: _ => isspace c
  end.

(** What [download_pdf] does once the [try] around the HEAD request is
    over: the GET request, the checks on its answer and the reading of the
    body. *)
Definition get_phase (W : World) (cfg : Settings) (url : pystr)
    : DL (pybytes * Meta) :=
  emit (EvGet url);;
  r ← lift (sess_get W url);
  raise_for_status r;;
  m ← get_meta;
  when (negb (truthy (meta_filename m)))
    (modify (set_filename
               (guess_filename W url (content_disposition (headers r)))));;
  modify (fun m => set_mime (or_else (content_type (headers r))
                                     (meta_mime m)) m);;
  m ← get_meta;
  when (truthy (meta_mime m)
        && negb (contains (str "pdf") (lower W (or_empty (meta_mime m)))))
    (raise (Exn ValueError
              (str "Unexpected content-type: " ++ or_empty (meta_mime m))));;
  let cap := byte_cap cfg in
  '(data, read) ← read_chunks W cfg cap (body r) (body_error r) [] 0;
  modify (fun m =>
    set_content_length
      (if read =? 0 then
         if Z.of_nat (length data) =? 0 then meta_content_length m
         else Some (Z.of_nat (length data))
       else Some read) m);;
  m ← get_meta;
  mret (data, m).

(** [meta] when the body is about to be read, [m0] being what the probe
    left: the GET's [Content-Type] if it has one, the probe's otherwise;
    the probe's file name if it has one, the GET's otherwise. *)
Definition meta_at_read (W : World) (url : pystr) (r : Response) (m0 : Meta)
    : Meta :=
  set_mime (or_else (content_type (headers r)) (meta_mime m0))
           (if truthy (meta_filename m0) then m0
            else set_filename
                   (guess_filename W url (content_disposition (headers r)))
                   m0).

(** The status codes [raise_for_status] refuses. *)
Definition error_status (code : nat) : bool :=
  ((400 <=? code) && (code <? 600))%nat.

(** The [Content-Type] the probe found, if the HEAD request was
    answered. *)
Definition head_content_type (W : World) (url : pystr) : option pystr :=
  match sess_head W url with
  | inr h => content_type (headers h)
  | inl _ => None
  end.

(** The message of the size error of the streaming loop. *)
Definition too_large_get (W : World) (cfg : Settings) : exn :=
  Exn ValueError
      (str "PDF too large (GET): exceeded "
       ++ format_float W (MAX_PDF_MB cfg) ++ str " MB cap").

(** Servers used as examples. *)
Module Cases.

(** A server that answers every GET with a page of HTML. *)
Definition html_world : World :=
  Sample.world
    (fun _ => inl Sample.unreachable)
    (fun url =>
       inr {| status_code := 200; reason := str "OK"; resp_url := url;
              headers := {| content_type := Some (str "text/html");
                            content_length := None;
                            content_disposition := None |};
              body := [Sample.tiny_pdf]; body_error := None |})
    (fun _ => inr (Pages [])).

(** A server that answers every GET with 404. *)
Definition gone_world : World :=
  Sample.world
    (fun _ => inl Sample.unreachable)
    (fun url =>
       inr {| status_code := 404; reason := str "Not Found"; resp_url := url;
              headers := Sample.pdf_headers None;
              body := [Sample.tiny_pdf]; body_error := None |})
    (fun _ => inr (Pages [])).

(** A server without HEAD that sends eight bytes in two chunks. *)
Definition eight_bytes_world : World :=
  Sample.world
    (fun _ => inl Sample.unreachable)
    (fun url => inr (Sample.ok_response url None
                       [Sample.tiny_pdf; []; Sample.tiny_pdf]))
    (fun _ => inr (Pages [Text (Some (str "Hello"))])).

(** A server that answers every GET with an empty PDF body. *)
Definition empty_body_world : World :=
  Sample.world
    (fun _ => inl Sample.unreachable)
    (fun url => inr (Sample.ok_response url None []))
    (fun _ => inr (Pages [])).

(** A table whose only row is processed. *)
Definition all_done : Table :=
  {[ 1%N := Sample.done_row (str "http://host/a") ]}.

(** Two fresh rows and a processed one. *)
Definition mixed : Table :=
  <[3%N := Sample.done_row (str "http://host/c")]> Sample.two_rows.

(** A cap of four bytes: 2^-18 MB. *)
Definition four_bytes_cap : Settings :=
  {| BATCH_SIZE := 200; MAX_PDF_MB := 1 # 262144; MAX_ATTEMPTS := 5 |}.

(** A server whose PDF has one page, with the character U+0000 in its
    text. *)
Definition nul_text_world : World :=
  Sample.world
    (fun _ => inl Sample.unreachable)
    (fun url => inr (Sample.ok_response url None [Sample.tiny_pdf]))
    (fun _ => inr (Pages [Text (Some [65%N; 0%N; 66%N])])).

(** A client whose GET raises with the character U+0000 in the message. *)
Definition nul_message_world : World :=
  Sample.world
    (fun _ => inl Sample.unreachable)
    (fun _ => inl (Exn (OtherException (str "InvalidURL"))
                       (str "Failed to parse: " ++ [0%N])))
    (fun _ => inr (Pages [])).

(** An encrypted document: it opens, and its pages cannot be counted. *)
Definition encrypted_world : World :=
  Sample.world
    (fun _ => inl Sample.unreachable)
    (fun _ => inl Sample.unreachable)
    (fun _ => inr (Unlisted
                     (Exn (PdfReadErrorSubclass (str "FileNotDecryptedError"))
                          (str "File has not been decrypted")))).

(** An attempt ceiling above what the column [process_attempts] holds, and
    a row whose counter is at the top of the column. *)
Definition no_ceiling : Settings :=
  {| BATCH_SIZE := 200; MAX_PDF_MB := 30; MAX_ATTEMPTS := 2147483648 |}.

Definition full_counter : Table :=
  {[ 1%N := {| pdf_url := Some (str "http://host/a"); raw_text := None;
               processed := Some false; process_attempts := 2147483647;
               processed_at := None; last_error := None;
               downloaded_at := None; bytes := None; mime := None;
               filename := None; sha256 := None |} ]}.

End Cases.

(** ** The progress dashboard ([stats.py]) *)

Definition ATTEMPT_BUCKETS : list (Z * Z) :=
  [(0, 0); (1, 1); (2, 2); (3, 3); (4, 4); (5, 5);
   (6, 10); (11, 20); (21, 9999)].

(** [SELECT count( * ) FROM table WHERE cond] *)
Definition count_where (cond : Row -> bool) (tbl : Table) : Z :=
  Z.of_nat (length (List.filter (fun p => cond (snd p)) (map_to_list tbl))).

(** The WHERE clause the loop over the buckets builds for [(lo, hi)]:
    [process_attempts = :n] when [lo == hi], BETWEEN otherwise. *)
Definition in_bucket (b : Z * Z) (r : Row) : bool :=
  let '(lo, hi) := b in
  if lo =? hi then process_attempts r =? lo
  else (lo <=? process_attempts r) && (process_attempts r <=? hi).

(** The counts printed under "Process attempts (all rows)". *)
Definition bucket_counts (tbl : Table) : list Z :=
  map (fun b => count_where (in_bucket b) tbl) ATTEMPT_BUCKETS.

Definition sum_Z (l : list Z) : Z := fold_right Z.add 0 l.

(** One for a row that satisfies a condition, zero otherwise. *)
Definition indicator (b : bool) : Z := if b then 1 else 0.

(** The "Overview" figures: [total], [processed] ([processed = TRUE]) and
    [unprocessed = total - processed]. *)
Definition stats_total (tbl : Table) : Z := count_where (fun _ => true) tbl.

Definition stats_processed (tbl : Table) : Z :=
  count_where (fun r => bool_decide (processed r = Some true)) tbl.

Definition stats_unprocessed (tbl : Table) : Z :=
  stats_total tbl - stats_processed tbl.

(** The rows the queue queries of the dashboard see: [processed = FALSE]. *)
Definition stats_queued (tbl : Table) : Z :=
  count_where (fun r => bool_decide (processed r = Some false)) tbl.

(** ** Invariants of the table *)

(** No two rows carry the same fingerprint. *)
Definition sha256_unique (tbl : Table) : Prop :=
  forall i j ri rj sha,
    tbl !! i = Some ri -> tbl !! j = Some rj ->
    sha256 ri = Some sha -> sha256 rj = Some sha -> i = j.

(** A processed row has its text and its fingerprint. *)
Definition processed_complete (tbl : Table) : Prop :=
  forall i r, tbl !! i = Some r -> processed r = Some true ->
              raw_text r <> None /\ sha256 r <> None.

(** * Properties *)

(** ** Strings *)

Section Strings.

Implicit Types s t : pystr.

Example str_of_nat_120 : str_of_nat 120 = str "120".
Proof. reflexivity. Qed.

Example strip_blanks : strip (str "  a b ") = str "a b".
Proof. reflexivity. Qed.

Example rstrip_newline : rstrip (str "a " ++ nl) = str "a".
Proof. reflexivity. Qed.

Example int_of_digits_40MB : int_of_digits (str "41943040") = Some 41943040.
Proof. reflexivity. Qed.

(** A superscript two is a digit for [isdigit] and not for [int]. *)
Example isdigit_superscript :
  isdigit [178%N] = true ∧ int_of_digits [178%N] = None.
Proof. split; reflexivity. Qed.

Lemma lstrip_suffix s :
  ∃ ws, s = ws ++ lstrip s ∧ forallb isspace ws = true.
Proof.
  induction s as [|c s [ws [E F]]]; simpl.
  - by exists [].
  - destruct (isspace c) eqn:Hc.
    + exists (c :: ws). simpl. rewrite Hc, F. split; [by f_equal|done].
    + by exists [].
Qed.

Lemma lstrip_head s c t : lstrip s = c :: t → isspace c = false.
Proof.
  induction s as [|a s IH]; simpl; [done|].
  destruct (isspace a) eqn:Ha; [done|]. by intros [= -> _].
Qed.

Lemma lstrip_nonspace c t : isspace c = false → lstrip (c :: t) = c :: t.
Proof. intros H. simpl. by rewrite H. Qed.

Lemma rstrip_prefix s :
  ∃ ws, s = rstrip s ++ ws ∧ forallb isspace ws = true.
Proof.
  unfold rstrip. destruct (lstrip_suffix (rev s)) as [ws [E F]].
  exists (rev ws). split.
  - rewrite <- rev_app_distr, <- E. by rewrite rev_involutive.
  - rewrite forallb_forall in *. intros x Hx. apply F. by apply in_rev.
Qed.

Lemma rstrip_no_trailing_space s : ends_with_space (rstrip s) = false.
Proof.
  unfold ends_with_space, rstrip. rewrite rev_involutive.
  destruct (lstrip (rev s)) as [|c t] eqn:E; [done|].
  by apply lstrip_head in E.
Qed.

Lemma rstrip_snoc s c : isspace c = false → rstrip (s ++ [c]) = s ++ [c].
Proof.
  intros H. unfold rstrip. rewrite rev_app_distr. simpl. rewrite H.
  simpl. by rewrite rev_involutive.
Qed.

Lemma strip_inner a s b :
  isspace a = false → isspace b = false →
  strip (a :: s ++ [b]) = a :: s ++ [b].
Proof.
  intros Ha Hb. unfold strip. rewrite lstrip_nonspace by done.
  change (a :: s ++ [b]) with ((a :: s) ++ [b]). by rewrite rstrip_snoc.
Qed.

Lemma join_cons sep p q (rest : list pystr) :
  join sep (p :: q :: rest) = p ++ sep ++ join sep (q :: rest).
Proof. done. Qed.

End Strings.

(** ** TextExtractor *)

Lemma join_page_lines texts :
  join nl (page_lines texts)
  = join PAGE_SEPARATOR (map (fun t => rstrip (or_empty t)) texts).
Proof.
  induction texts as [|t [|u rest] IH]; [done|done|].
  change (page_lines (t :: u :: rest))
    with (rstrip (or_empty t) :: PAGE_BREAK :: page_lines (u :: rest)).
  simpl map in *. rewrite (join_cons PAGE_SEPARATOR), <- IH.
  destruct (page_lines (u :: rest)) as [|x xs] eqn:E.
  { by destruct rest. }
  rewrite !join_cons. unfold PAGE_SEPARATOR. by rewrite <- !app_assoc.
Qed.

Lemma page_lines_lookup texts i :
  page_lines texts !! (2 * i)%nat
  = (fun t => rstrip (or_empty t)) <$> texts !! i.
Proof.
  revert i. induction texts as [|t [|u rest] IH]; intros i.
  - done.
  - by destruct i as [|[|i]].
  - destruct i as [|i]; [done|].
    replace (2 * S i)%nat with (S (S (2 * i))) by lia.
    apply (IH i).
Qed.

Lemma extract_pages_decoded total i texts out_lines :
  total = (i + length texts - 1)%nat → (1 <= i)%nat →
  extract_pages total i (map Text texts) out_lines
  = inr (out_lines ++ page_lines texts).
Proof.
  revert i out_lines.
  induction texts as [|t rest IH]; intros i out Ht Hi; simpl.
  - by rewrite app_nil_r.
  - destruct rest as [|u rest].
    + simpl in *. replace (i <? total)%nat with false; [done|].
      symmetry. apply Nat.ltb_ge. lia.
    + replace (i <? total)%nat with true.
      2:{ symmetry. apply Nat.ltb_lt. simpl in Ht. lia. }
      rewrite IH by (simpl in *; lia).
      by rewrite <- !app_assoc.
Qed.

Lemma extract_text_lines W pdf_bytes texts :
  pdf_bytes <> [] → PdfReader W pdf_bytes = inr (Pages (map Text texts)) →
  extract_text W pdf_bytes = inr (strip (join nl (page_lines texts))).
Proof.
  intros Hne HR. unfold extract_text. destruct pdf_bytes as [|b bs]; [done|].
  rewrite HR, extract_pages_decoded; [done| |lia].
  rewrite length_map. lia.
Qed.

(** C8, as the code has it: empty input gives the empty string; when the
    document opens and its pages decode, the result is the page texts in
    page order, each without its trailing white space, joined by the fixed
    separator (three newlines, the marker, three newlines) between
    consecutive pages and trimmed; two pages ["Hello"] and ["World"] give
    ["Hello"], the separator, ["World"]. *)
Theorem extract_text_joined (W : World) :
  extract_text W [] = inr []
  ∧ PAGE_SEPARATOR
    = nl ++ nl ++ nl ++ str "----- PAGE BREAK -----" ++ nl ++ nl ++ nl
  ∧ (∀ pdf_bytes texts,
       pdf_bytes <> [] →
       PdfReader W pdf_bytes = inr (Pages (map Text texts)) →
       extract_text W pdf_bytes
       = inr (strip (join PAGE_SEPARATOR
                          (map (fun t => rstrip (or_empty t)) texts))))
  ∧ (∀ pdf_bytes,
       pdf_bytes <> [] →
       PdfReader W pdf_bytes
       = inr (Pages [Text (Some (str "Hello")); Text (Some (str "World"))]) →
       extract_text W pdf_bytes
       = inr (str "Hello" ++ PAGE_SEPARATOR ++ str "World")).
Proof.
  split; [done|]. split; [done|]. split.
  - intros pdf_bytes texts Hne HR.
    by rewrite (extract_text_lines W pdf_bytes texts), join_page_lines.
  - intros pdf_bytes Hne HR.
    by rewrite (extract_text_lines W pdf_bytes
                  [Some (str "Hello"); Some (str "World")]).
Qed.

Lemma extract_text_joined_witness :
  extract_text
    (Sample.reader_world [Text (Some (str "Hello")); Text (Some (str "World"))])
    Sample.tiny_pdf
  = inr (str "Hello" ++ PAGE_SEPARATOR ++ str "World").
Proof.
  apply (proj2 (proj2 (proj2 (extract_text_joined _)))).
  - discriminate.
  - reflexivity.
Defined.

(** C8 as stated fails: for pages ["A "] and ["B"] no separator makes the
    result the two page texts joined and trimmed, since the blank that ends
    the first page is gone. *)
Lemma extract_text_not_plain_join :
  ¬ ∃ sep,
      extract_text
        (Sample.reader_world [Text (Some (str "A ")); Text (Some (str "B"))])
        Sample.tiny_pdf
      = inr (joined_and_trimmed sep [str "A "; str "B"]).
Proof.
  intros [sep H].
  change (joined_and_trimmed sep [str "A "; str "B"])
    with (strip (65%N :: (32%N :: sep) ++ [66%N])) in H.
  rewrite strip_inner in H by done.
  vm_compute in H. discriminate H.
Qed.

(** C10: when the document opens and its pages decode, the line that page
    [i] contributes to [out_lines] is its text with the trailing white
    space removed: the text is that line followed by white space only, and
    the line does not end in white space; the result is these lines and
    the markers, joined and trimmed. *)
Theorem extract_text_rstrips_pages (W : World) pdf_bytes texts :
  pdf_bytes <> [] →
  PdfReader W pdf_bytes = inr (Pages (map Text texts)) →
  extract_pages (length texts) 1 (map Text texts) [] = inr (page_lines texts)
  ∧ extract_text W pdf_bytes = inr (strip (join nl (page_lines texts)))
  ∧ ∀ i t, texts !! i = Some t →
      ∃ line ws,
        page_lines texts !! (2 * i)%nat = Some line
        ∧ or_empty t = line ++ ws
        ∧ forallb isspace ws = true
        ∧ ends_with_space line = false.
Proof.
  intros Hne HR. split; [|split].
  - rewrite extract_pages_decoded; [done|lia|lia].
  - by apply extract_text_lines.
  - intros i t Hi.
    destruct (rstrip_prefix (or_empty t)) as [ws [E F]].
    exists (rstrip (or_empty t)), ws. split; [|split; [|split]].
    + by rewrite page_lines_lookup, Hi.
    + done.
    + done.
    + apply rstrip_no_trailing_space.
Qed.

Lemma extract_text_rstrips_pages_witness :
  extract_text
    (Sample.reader_world [Text (Some (str "A ")); Text (Some (str "B"))])
    Sample.tiny_pdf
  = inr (strip (join nl (page_lines [Some (str "A "); Some (str "B")]))).
Proof.
  apply (extract_text_rstrips_pages _ Sample.tiny_pdf
           [Some (str "A "); Some (str "B")]).
  - discriminate.
  - reflexivity.
Defined.

(** ** Downloader *)

Section Traces.

Lemma grows_ret {A} (x : A) : grows (ret x).
Proof. intros s. exists []. by rewrite app_nil_r. Qed.

Lemma grows_raise {A} e : grows (@raise A e).
Proof. intros s. exists []. by rewrite app_nil_r. Qed.

Lemma grows_lift {A} (r : exn + A) : grows (lift r).
Proof. intros s. exists []. by rewrite app_nil_r. Qed.

Lemma grows_emit e : grows (emit e).
Proof. intros s. by exists [e]. Qed.

Lemma grows_get_meta : grows get_meta.
Proof. intros s. exists []. by rewrite app_nil_r. Qed.

Lemma grows_modify f : grows (modify f).
Proof. intros s. exists []. by rewrite app_nil_r. Qed.

Lemma grows_bind {A B} (m : DL A) (k : A → DL B) :
  grows m → (∀ x, grows (k x)) → grows (bind m k).
Proof.
  intros Hm Hk s. unfold bind. destruct (Hm s) as [tr1 E1].
  destruct (m s) as [s1 [e|x]]; simpl in *.
  - by exists tr1.
  - destruct (Hk x s1) as [tr2 E2]. exists (tr1 ++ tr2).
    by rewrite E2, E1, app_assoc.
Qed.

Lemma grows_when b m : grows m → grows (when b m).
Proof. destruct b; [done|]. intros _. apply grows_ret. Qed.

Lemma grows_raise_for_status r : grows (raise_for_status r).
Proof.
  unfold raise_for_status.
  repeat case_match; first [apply grows_raise | apply grows_ret].
Qed.

Lemma grows_read_chunks W cfg cap chunks err buf read :
  grows (read_chunks W cfg cap chunks err buf read).
Proof.
  revert buf read. induction chunks as [|chunk rest IH]; intros buf read.
  - simpl. destruct err; [apply grows_raise | apply grows_ret].
  - destruct chunk as [|b chunk]; [apply IH|].
    cbn [read_chunks]. apply grows_bind; [apply grows_emit|].
    intros _. case_match; [apply grows_raise|apply IH].
Qed.

End Traces.

(** The probe calls [sess.head] once, and whatever it does -- respond,
    fail, or declare too large a size -- the computation goes on. *)
Lemma try_head_probe W cfg url s :
  ∃ m, try_pass (head_probe W cfg url) s
       = ({| meta := m; trace := trace s ++ [EvHead url] |}, inr tt).
Proof.
  unfold try_pass.
  assert (G : ∀ s', trace (fst (head_probe W cfg url s')) = trace s' ++ [EvHead url]).
  { intros s'. unfold head_probe, mbind, DL_bind, bind, emit, lift, modify,
      when, raise, ret, get_meta, put_meta. simpl.
    repeat (case_match; simplify_eq/=; try done). }
  specialize (G s). destruct (head_probe W cfg url s) as [[m tr] r].
  simpl in G. subst tr. by exists m.
Qed.

(** The GET request is issued after every probe. *)
Lemma download_pdf_always_gets W cfg url :
  ∃ tr, fst (download_pdf_traced W cfg url) = EvHead url :: EvGet url :: tr.
Proof.
  unfold download_pdf_traced, download_pdf_body.
  set (s0 := {| meta := empty_meta; trace := [] |}).
  unfold mbind at 1, DL_bind at 1, bind at 1.
  destruct (try_head_probe W cfg url s0) as [m ->].
  unfold mbind at 1, DL_bind at 1, bind at 1. cbn [emit meta trace app].
  match goal with
  | |- context [let '(s, r) := ?k ?st in (trace s, r)] =>
      assert (G : ∃ tr, trace (fst (k st)) = trace st ++ tr);
      [|destruct G as [tr G]; destruct (k st) as [s r]; simpl in *;
        exists tr; by rewrite G]
  end.
  match goal with |- ∃ tr, trace (fst (?k _)) = _ => assert (G : grows k) end.
  { repeat first
      [ apply grows_bind | apply grows_lift | apply grows_raise_for_status
      | apply grows_get_meta | apply grows_when | apply grows_modify
      | apply grows_raise | apply grows_read_chunks | apply grows_ret
      | intros [] | intros ? ]. }
  apply G.
Qed.

(** C2 fails on the code: with the cap at 30 MB, a probe that declares
    41943040 bytes (40 MB) does not stop [download_pdf].  The size error
    raised inside the probe's [try] is caught by its own [except]; the GET
    is issued, four bytes of body are read, and the download succeeds. *)
Theorem download_pdf_head_oversize_proceeds :
  let url := str "http://host/big.pdf" in
  Qgtb (megabytes 41943040) (MAX_PDF_MB Sample.cfg) = true
  ∧ byte_cap Sample.cfg = 31457280
  ∧ sess_head Sample.oversize_world url
    = inr (Sample.ok_response url (Some (str "41943040")) [])
  ∧ ∃ m, download_pdf_traced Sample.oversize_world Sample.cfg url
         = ([EvHead url; EvGet url; EvRead 4], inr (Sample.tiny_pdf, m))
         ∧ meta_content_length m = Some 4.
Proof.
  repeat split. eexists. split; vm_compute; reflexivity.
Qed.

(** ** BatchClaimer *)

Lemma sublist_fmap {A B} (f : A → B) (l k : list A) :
  l `sublist_of` k → f <$> l `sublist_of` f <$> k.
Proof. induction 1; simpl; by constructor. Qed.

Section Claimer.

Variable cfg : Settings.
Implicit Types (tbl : Table) (locks : gmap N nat) (p : N * Row).

#[local] Instance by_id_total : Total by_id.
Proof. intros a b. unfold by_id. lia. Qed.

#[local] Instance by_id_trans : Transitive by_id.
Proof. intros a b c. unfold by_id. lia. Qed.

Lemma candidates_perm tbl :
  candidates cfg tbl
  ≡ₚ List.filter (fun p => eligible cfg (snd p)) (map_to_list tbl).
Proof. apply merge_sort_Permutation. Qed.

Lemma candidates_elem tbl p :
  p ∈ candidates cfg tbl
  ↔ tbl !! fst p = Some (snd p) ∧ eligible cfg (snd p) = true.
Proof.
  rewrite candidates_perm, list_elem_of_In, filter_In, <- list_elem_of_In.
  destruct p as [i r]. by rewrite elem_of_map_to_list.
Qed.

Lemma candidates_sorted tbl : StronglySorted by_id (candidates cfg tbl).
Proof. apply StronglySorted_merge_sort; apply _. Qed.

Lemma filter_sublist {A} (f : A → bool) (l : list A) :
  List.filter f l `sublist_of` l.
Proof.
  induction l as [|x l IH]; simpl; [constructor|].
  destruct (f x); by constructor.
Qed.

Lemma candidates_NoDup tbl : NoDup (candidates cfg tbl).*1.
Proof.
  rewrite candidates_perm.
  eapply sublist_NoDup; [apply (NoDup_fst_map_to_list tbl)|].
  apply sublist_fmap, filter_sublist.
Qed.

Lemma eligible_spec r :
  eligible cfg r = true
  ↔ processed r <> Some true ∧ pdf_url r <> None
    ∧ process_attempts r < MAX_ATTEMPTS cfg.
Proof.
  unfold eligible. rewrite !andb_true_iff, negb_true_iff.
  rewrite bool_decide_eq_false, bool_decide_eq_true, Z.ltb_lt. tauto.
Qed.

End Claimer.

Lemma StronglySorted_sublist {A} (R : relation A) (l k : list A) :
  l `sublist_of` k → StronglySorted R k → StronglySorted R l.
Proof.
  induction 1 as [|x l k Hs IH|x l k Hs IH]; intros HS.
  - constructor.
  - apply StronglySorted_inv in HS as [HS HF]. constructor; [by apply IH|].
    rewrite Forall_forall in HF. apply Forall_forall. intros y Hy.
    apply HF. by eapply elem_of_sublist.
  - apply StronglySorted_inv in HS as [HS _]. by apply IH.
Qed.

(** Ascending and without repetition is strictly ascending. *)
Lemma by_id_strict (l : list (N * Row)) :
  StronglySorted by_id l → NoDup l.*1 → StronglySorted N.lt l.*1.
Proof.
  induction 1 as [|p l HS IH HF]; simpl; intros HN; [constructor|].
  apply NoDup_cons in HN as [Hp HN]. constructor; [by apply IH|].
  rewrite Forall_forall in HF. apply Forall_forall. intros i Hi.
  apply list_elem_of_fmap in Hi as [q [-> Hq]].
  assert (fst p <> fst q).
  { intros E. apply Hp. rewrite E. by apply list_elem_of_fmap_2. }
  specialize (HF q Hq). unfold by_id in HF. lia.
Qed.

(** What a claim returns is a part of the candidates, in their order, of
    at most [limit] rows. *)
Lemma lock_rows_sublist me limit locks (cands : list (N * Row)) :
  ∃ l, l `sublist_of` cands
       ∧ fst (lock_rows me limit locks cands) = select_id_url <$> l
       ∧ (length l <= limit)%nat.
Proof.
  revert limit locks.
  induction cands as [|[id r] rest IH]; intros limit locks.
  - exists []. destruct limit; simpl; repeat split; try constructor; lia.
  - destruct limit as [|k].
    { exists []. simpl. repeat split; [apply sublist_nil_l|lia]. }
    cbn [lock_rows]. destruct (locked_by_other me locks id).
    + destruct (IH (S k) locks) as [l (Hs & E & Hl)].
      exists l. repeat split; [by constructor|done|done].
    + destruct (IH k (<[id := me]> locks)) as [l (Hs & E & Hl)].
      destruct (lock_rows me k (<[id:=me]> locks) rest) as [rows locks'].
      exists ((id, r) :: l). simpl in *. subst rows.
      repeat split; [by constructor|lia].
Qed.

Lemma ids_select (l : list (N * Row)) : ids (select_id_url <$> l) = l.*1.
Proof. unfold ids. induction l as [|p l IH]; simpl; [done|]. by f_equal. Qed.

(** C4: for a batch size that is not negative, [fetch_batch] returns at
    most [BATCH_SIZE] rows; every row it returns is a row of the table
    whose [processed] is not true, whose [pdf_url] is not null and whose
    [process_attempts] is below [MAX_ATTEMPTS]; the rows come by ascending
    [id]; and a row at or above the ceiling is not among them, whatever
    its [processed]. *)
Theorem fetch_batch_eligible_sorted cfg me (locks : gmap N nat) (tbl : Table) :
  0 <= BATCH_SIZE cfg →
  ∃ rows locks',
    fetch_batch cfg me locks tbl = inr (rows, locks')
    ∧ Z.of_nat (length rows) <= BATCH_SIZE cfg
    ∧ (∀ id url, (id, url) ∈ rows →
         ∃ r, tbl !! id = Some r ∧ url = pdf_url r
              ∧ processed r <> Some true
              ∧ pdf_url r <> None
              ∧ process_attempts r < MAX_ATTEMPTS cfg)
    ∧ StronglySorted N.lt (ids rows)
    ∧ (∀ id r, tbl !! id = Some r →
         MAX_ATTEMPTS cfg <= process_attempts r → id ∉ ids rows).
Proof.
  intros HN. unfold fetch_batch.
  destruct (Z.ltb_spec (BATCH_SIZE cfg) 0) as [?|_]; [lia|].
  destruct (lock_rows_sublist me (Z.to_nat (BATCH_SIZE cfg)) locks
              (candidates cfg tbl)) as [l (Hs & E & Hl)].
  destruct (lock_rows _ _ _ _) as [rows locks'] eqn:HL. simpl in E.
  exists rows, locks'. subst rows.
  assert (Hin : ∀ p, p ∈ l →
            tbl !! fst p = Some (snd p) ∧ eligible cfg (snd p) = true).
  { intros p Hp. apply candidates_elem. by eapply elem_of_sublist. }
  split; [done|]. split; [rewrite length_fmap; lia|]. split; [|split].
  - intros id url Hrow. apply list_elem_of_fmap in Hrow as [[i r] [[= -> ->] Hp]].
    destruct (Hin _ Hp) as [Hlook Hel]. apply eligible_spec in Hel.
    exists r. simpl in *. tauto.
  - rewrite ids_select. apply by_id_strict.
    + eapply StronglySorted_sublist; [done|apply candidates_sorted].
    + eapply sublist_NoDup; [apply candidates_NoDup|by apply sublist_fmap].
  - intros id r Hlook Hmax Hid. rewrite ids_select in Hid.
    apply list_elem_of_fmap in Hid as [[i r'] [-> Hp]].
    destruct (Hin _ Hp) as [Hlook' Hel]. simpl in *.
    apply eligible_spec in Hel. simplify_eq. lia.
Qed.

Lemma fetch_batch_eligible_sorted_witness :
  ∃ rows locks',
    fetch_batch Sample.cfg 1 ∅ (Sample.backlog 3) = inr (rows, locks')
    ∧ Z.of_nat (length rows) <= 200
    ∧ StronglySorted N.lt (ids rows).
Proof.
  destruct (fetch_batch_eligible_sorted Sample.cfg 1 ∅ (Sample.backlog 3))
    as (rows & locks' & E & Hlen & _ & Hsort & _).
  - vm_compute. discriminate.
  - exists rows, locks'. auto.
Defined.

(** *** Concurrent claims *)

Section Concurrent.

Implicit Types (c : claims) (s : scan) (w me : nat) (sched : list nat).

Lemma locked_by_other_owner me w (l : gmap N nat) id :
  l !! id = Some w → w <> me → locked_by_other me l id = true.
Proof.
  intros H Hne. unfold locked_by_other. rewrite H.
  apply negb_true_iff, Nat.eqb_neq. done.
Qed.

Lemma scan_step_cases me (l : gmap N nat) s :
  scan_step me l s = (l, s) ∧ scan_done s = true
  ∨ ∃ id r rest k,
      pending s = (id, r) :: rest ∧ room s = S k
      ∧ (locked_by_other me l id = true
         ∧ scan_step me l s
           = (l, {| pending := rest; room := S k; claimed := claimed s |})
         ∨ locked_by_other me l id = false
           ∧ scan_step me l s
             = (<[id := me]> l,
                {| pending := rest; room := k;
                   claimed := claimed s ++ [(id, pdf_url r)] |})).
Proof.
  unfold scan_step, scan_done. destruct s as [pend rm cl]; simpl.
  destruct rm as [|k]; [by left|].
  destruct pend as [|[id r] rest]; [by left|].
  right. exists id, r, rest, k. do 2 (split; [done|]).
  destruct (locked_by_other me l id); [by left|by right].
Qed.

Lemma owns_its_rows_step c w : owns_its_rows c → owns_its_rows (claims_step c w).
Proof.
  intros Inv. unfold claims_step.
  destruct (scans c !! w) as [s0|] eqn:Hw; [|done].
  destruct (scan_step_cases w (locks c) s0)
    as [[-> _]|(id & r & rest & k & Hp & Hr & [[Hl ->]|[Hl ->]])].
  - intros w' s id. simpl. destruct (decide (w = w')) as [->|Hne].
    + rewrite lookup_insert_eq. intros [= <-]. by apply Inv.
    + rewrite lookup_insert_ne by done. apply Inv.
  - intros w' s id'. simpl. destruct (decide (w = w')) as [->|Hne].
    + rewrite lookup_insert_eq. intros [= <-]. simpl. by apply Inv.
    + rewrite lookup_insert_ne by done. apply Inv.
  - intros w' s id'. simpl. destruct (decide (w = w')) as [->|Hne].
    + rewrite lookup_insert_eq. intros [= <-]. simpl.
      unfold ids. rewrite map_app, elem_of_app. simpl.
      destruct (decide (id' = id)) as [->|Hid].
      * by rewrite lookup_insert_eq.
      * rewrite lookup_insert_ne by done. intros [H|H].
        -- by apply (Inv w' s0).
        -- apply list_elem_of_singleton in H. done.
    + rewrite lookup_insert_ne by done. intros Hs Hin.
      specialize (Inv w' s id' Hs Hin).
      destruct (decide (id' = id)) as [->|Hid].
      * rewrite (locked_by_other_owner w w' _ id) in Hl; [done|done|].
        intros ->. done.
      * by rewrite lookup_insert_ne.
Qed.

Lemma owns_its_rows_run sched c :
  owns_its_rows c → owns_its_rows (run_schedule c sched).
Proof.
  revert c. induction sched as [|w sched IH]; intros c Inv; [done|].
  apply IH, owns_its_rows_step, Inv.
Qed.

Lemma owns_its_rows_start cfg tbl locks0 workers :
  owns_its_rows (start_claims cfg tbl locks0 workers).
Proof.
  intros w s id. simpl. rewrite lookup_gset_to_gmap_Some.
  intros [_ <-]. simpl. by intros ?%elem_of_nil.
Qed.

Lemma run_schedule_cons c w sched :
  run_schedule c (w :: sched) = run_schedule (claims_step c w) sched.
Proof. done. Qed.

Lemma claims_step_scan c w s l' s' :
  scans c !! w = Some s → scan_step w (locks c) s = (l', s') →
  claims_step c w = {| locks := l'; scans := <[w := s']> (scans c) |}.
Proof. intros Hs Hstep. unfold claims_step. by rewrite Hs, Hstep. Qed.

(** A step of a scan that has not returned visits one candidate,
    whatever the locks: there is nothing to wait for. *)
Lemma scan_step_to_visit me (l : gmap N nat) s :
  (to_visit (snd (scan_step me l s)) <= to_visit s - 1)%nat.
Proof.
  destruct (scan_step_cases me l s)
    as [[-> Hd]|(id & r & rest & k & Hp & Hr & [[Hl ->]|[Hl ->]])];
    unfold to_visit; simpl.
  - rewrite Hd. lia.
  - unfold scan_done. simpl. rewrite Hp, Hr. simpl.
    destruct rest; simpl; lia.
  - unfold scan_done. simpl. rewrite Hp, Hr. simpl.
    destruct k, rest; simpl; lia.
Qed.

Lemma to_visit_run sched c w s :
  scans c !! w = Some s →
  ∃ s', scans (run_schedule c sched) !! w = Some s'
        ∧ (to_visit s' <= to_visit s - count_occ Nat.eq_dec sched w)%nat.
Proof.
  revert c s. induction sched as [|w0 sched IH]; intros c s Hs.
  - exists s. split; [done|simpl; lia].
  - rewrite run_schedule_cons. unfold claims_step.
    destruct (scans c !! w0) as [s0|] eqn:Hw0.
    + destruct (scan_step w0 (locks c) s0) as [l' s0'] eqn:Hstep.
      destruct (decide (w0 = w)) as [->|Hne].
      * destruct (IH {| locks := l'; scans := <[w := s0']> (scans c) |} s0')
          as [s' [E Hle]]; [by simpl; rewrite lookup_insert_eq|].
        exists s'. split; [done|]. simpl.
        destruct (Nat.eq_dec w w); [|done].
        pose proof (scan_step_to_visit w (locks c) s0) as Hv.
        rewrite Hstep in Hv. simpl in Hv. simplify_eq. lia.
      * destruct (IH {| locks := l'; scans := <[w0 := s0']> (scans c) |} s)
          as [s' [E Hle]]; [by simpl; rewrite lookup_insert_ne|].
        exists s'. split; [done|]. simpl.
        destruct (Nat.eq_dec w0 w); [done|lia].
    + destruct (IH c s Hs) as [s' [E Hle]]. exists s'. split; [done|].
      simpl. destruct (Nat.eq_dec w0 w) as [->|]; [congruence|lia].
Qed.

Lemma to_visit_done s : to_visit s = O → scan_done s = true.
Proof.
  unfold to_visit, scan_done.
  destruct (room s), (pending s); simpl; done.
Qed.

(** A claim that runs alone is [lock_rows]. *)
Lemma run_alone n me c s :
  scans c !! me = Some s → (to_visit s <= n)%nat →
  result_of (run_schedule c (replicate n me)) me
  = claimed s ++ fst (lock_rows me (room s) (locks c) (pending s))
  ∧ locks (run_schedule c (replicate n me))
    = snd (lock_rows me (room s) (locks c) (pending s)).
Proof.
  revert c s. induction n as [|n IH]; intros c s Hs Hn.
  - simpl. unfold result_of. rewrite Hs.
    assert (Hd : scan_done s = true) by (apply to_visit_done; lia).
    unfold scan_done in Hd.
    destruct (room s), (pending s); simpl; try done; by rewrite app_nil_r.
  - cbn [replicate]. rewrite run_schedule_cons.
    pose proof (scan_step_to_visit me (locks c) s) as Hv.
    destruct (scan_step_cases me (locks c) s)
      as [[Hstep Hd]|(id & r & rest & k & Hp & Hr & [[Hl Hstep]|[Hl Hstep]])];
      rewrite (claims_step_scan c me s _ _ Hs Hstep);
      rewrite Hstep in Hv; simpl in Hv;
      match goal with
      | |- context [run_schedule ?c0 _] =>
          match type of Hstep with
          | _ = (_, ?s0) =>
              destruct (IH c0 s0) as [E1 E2];
              [by simpl; rewrite lookup_insert_eq|lia|]
          end
      end; rewrite E1, E2; simpl.
    + done.
    + rewrite Hp, Hr. simpl. by rewrite Hl.
    + rewrite Hp, Hr. simpl. rewrite Hl.
      destruct (lock_rows me k (<[id:=me]> (locks c)) rest) as [rows l'].
      simpl. by rewrite <- app_assoc.
Qed.

(** [fetch_batch] is the claim of a worker that runs alone. *)
Lemma fetch_batch_run_alone cfg me tbl locks0 n :
  0 <= BATCH_SIZE cfg → (length (candidates cfg tbl) <= n)%nat →
  let c := run_schedule (start_claims cfg tbl locks0 {[me]})
                        (replicate n me) in
  fetch_batch cfg me locks0 tbl = inr (result_of c me, locks c).
Proof.
  intros HB Hn c. unfold fetch_batch.
  destruct (Z.ltb_spec (BATCH_SIZE cfg) 0) as [?|_]; [lia|].
  destruct (run_alone n me (start_claims cfg tbl locks0 {[me]})
              (start_scan cfg tbl)) as [E1 E2].
  - simpl. apply lookup_gset_to_gmap_Some. split; [set_solver|done].
  - unfold to_visit. destruct (scan_done _); simpl; lia.
  - subst c. rewrite E1, E2. simpl.
    by destruct (lock_rows _ _ _ _).
Qed.

End Concurrent.

(** C1: claim requests of different workers against the same table run
    interleaved, row by row, on the shared lock table.  Under every
    schedule the rows given to two different workers have no [id] in
    common; and a worker's claim has returned once the worker has made as
    many steps as there are candidates, whatever the other workers did in
    between: no step waits for a lock. *)
Theorem concurrent_claims_disjoint cfg (tbl : Table) (locks0 : gmap N nat)
    (workers : gset nat) (sched : list nat) (w1 w2 : nat) :
  w1 <> w2 →
  let c := run_schedule (start_claims cfg tbl locks0 workers) sched in
  (∀ id, id ∈ ids (result_of c w1) → id ∉ ids (result_of c w2))
  ∧ (∀ w, (length (candidates cfg tbl) <= count_occ Nat.eq_dec sched w)%nat →
          finished c w = true).
Proof.
  intros Hne c. split.
  - intros id H1 H2.
    pose proof (owns_its_rows_run sched _
                  (owns_its_rows_start cfg tbl locks0 workers)) as Inv.
    fold c in Inv. unfold result_of in *.
    destruct (scans c !! w1) as [s1|] eqn:E1; [|by apply elem_of_nil in H1].
    destruct (scans c !! w2) as [s2|] eqn:E2; [|by apply elem_of_nil in H2].
    pose proof (Inv w1 s1 id E1 H1). pose proof (Inv w2 s2 id E2 H2).
    congruence.
  - intros w Hw. unfold finished.
    destruct (scans (start_claims cfg tbl locks0 workers) !! w) as [s0|] eqn:E0.
    + destruct (to_visit_run sched _ w s0 E0) as [s' [E Hle]].
      fold c in E. rewrite E. apply to_visit_done.
      simpl in E0. apply lookup_gset_to_gmap_Some in E0 as [_ <-].
      assert (to_visit (start_scan cfg tbl) <= length (candidates cfg tbl))%nat.
      { unfold to_visit. destruct (scan_done _); simpl; lia. }
      lia.
    + destruct (scans c !! w) as [s|] eqn:E; [|done].
      exfalso. clear Hw. subst c.
      revert E E0. generalize (start_claims cfg tbl locks0 workers).
      induction sched as [|w0 sched IH]; intros c0 E E0; [simpl in E; congruence|].
      apply (IH (claims_step c0 w0)); [done|].
      unfold claims_step. destruct (scans c0 !! w0) eqn:E3; [|done].
      destruct (scan_step _ _ _). simpl.
      rewrite lookup_insert_ne; [done|]. intros ->. congruence.
Qed.

Lemma concurrent_claims_disjoint_witness :
  let c := run_schedule
             (start_claims Sample.cfg (Sample.backlog 3) ∅ {[1%nat; 2%nat]})
             [1; 2; 2; 1; 2; 1]%nat in
  (∀ id, id ∈ ids (result_of c 1%nat) → id ∉ ids (result_of c 2%nat))
  ∧ finished c 1%nat = true.
Proof.
  intros c.
  destruct (concurrent_claims_disjoint Sample.cfg (Sample.backlog 3) ∅
              {[1%nat; 2%nat]} [1; 2; 2; 1; 2; 1]%nat 1%nat 2%nat) as [D F].
  - lia.
  - split; [exact D|]. apply F. vm_compute. lia.
Defined.

(** ** OutcomeWriter *)

Section Writer.

Implicit Types (tbl : Table) (r : Row) (doc_id id : N).

(** The unique index refuses [sha] exactly when another row has it. *)
Lemma sha256_taken_spec tbl doc_id sha :
  sha256_taken tbl doc_id sha = true
  ↔ ∃ id r, id <> doc_id ∧ tbl !! id = Some r ∧ sha256 r = Some sha.
Proof.
  unfold sha256_taken. rewrite existsb_exists. split.
  - intros [[id r] [Hin Hb]]. apply andb_true_iff in Hb as [Hne Hsha].
    apply negb_true_iff, N.eqb_neq in Hne.
    apply bool_decide_eq_true in Hsha.
    apply list_elem_of_In, elem_of_map_to_list in Hin. by exists id, r.
  - intros (id & r & Hne & Hlook & Hsha). exists (id, r). split.
    + by apply list_elem_of_In, elem_of_map_to_list.
    + apply andb_true_iff. split.
      * by apply negb_true_iff, N.eqb_neq.
      * by apply bool_decide_eq_true.
Qed.

Lemma alter_as_insert (f : Row → Row) tbl id r :
  tbl !! id = Some r → alter f id tbl = <[id := f r]> tbl.
Proof.
  intros Hr. apply map_eq. intros j. destruct (decide (id = j)) as [->|Hne].
  - by rewrite lookup_alter_eq, lookup_insert_eq, Hr.
  - by rewrite lookup_alter_ne, lookup_insert_ne.
Qed.

Lemma alter_missing (f : Row → Row) tbl id :
  tbl !! id = None → alter f id tbl = tbl.
Proof.
  intros Hr. apply map_eq. intros j. destruct (decide (id = j)) as [->|Hne].
  - by rewrite lookup_alter_eq, Hr.
  - by rewrite lookup_alter_ne.
Qed.

(** What [mark_success] has written when it returns. *)
Lemma mark_success_inr W now_ tbl tbl' doc_id text m data sha :
  mark_success W now_ tbl doc_id text m data sha = inr tbl' →
  match tbl !! doc_id with
  | None => tbl' = tbl
  | Some r =>
      sha256_taken tbl doc_id sha = false
      ∧ tbl' = <[doc_id := success_row now_ text m data sha r]> tbl
  end.
Proof.
  unfold mark_success. cbv zeta.
  destruct (existsb holds_nul _); [done|].
  destruct (INT_MAX <? Z.of_nat (length data)); [done|].
  destruct (tbl !! doc_id) as [r|]; [|by intros [= <-]].
  destruct (INT_MAX <? process_attempts r + 1); [done|].
  destruct (sha256_taken tbl doc_id sha); [done|]. by intros [= <-].
Qed.


(** What [mark_failure] has written when it returns. *)
Lemma mark_failure_inr W tbl tbl' doc_id err :
  mark_failure W tbl doc_id err = inr tbl' →
  tbl' = alter (failure_row (take 800 err)) doc_id tbl.
Proof.
  unfold mark_failure. cbv zeta.
  destruct (existsb holds_nul _); [done|].
  destruct (tbl !! doc_id) as [r|] eqn:Hr.
  - destruct (INT_MAX <? process_attempts r + 1); [done|].
    intros [= <-]. symmetry. by apply alter_as_insert.
  - intros [= <-]. symmetry. by apply alter_missing.
Qed.

End Writer.

(** C5: when the success write goes through, the row [doc_id] is written:
    [raw_text] is the extracted text, [processed] is true, [processed_at]
    is the current time, [process_attempts] is one more, [last_error] is
    null, [bytes] and [mime] are those of this attempt, [downloaded_at]
    and [filename] keep a value they already had and take the new one
    otherwise, [sha256] is the fingerprint; [pdf_url] and the other rows
    are as before. *)
Theorem mark_success_fields W now_ (tbl tbl' : Table) doc_id r text m data
    sha :
  tbl !! doc_id = Some r →
  mark_success W now_ tbl doc_id text m data sha = inr tbl' →
  ∃ r',
    tbl' !! doc_id = Some r'
    ∧ raw_text r' = Some text
    ∧ processed r' = Some true
    ∧ processed_at r' = Some now_
    ∧ process_attempts r' = process_attempts r + 1
    ∧ last_error r' = None
    ∧ bytes r' = Some (Z.of_nat (length data))
    ∧ mime r' = meta_mime m
    ∧ downloaded_at r'
      = match downloaded_at r with Some t => Some t | None => Some now_ end
    ∧ filename r'
      = match filename r with Some f => Some f | None => meta_filename m end
    ∧ sha256 r' = Some sha
    ∧ pdf_url r' = pdf_url r
    ∧ ∀ id, id <> doc_id → tbl' !! id = tbl !! id.
Proof.
  intros Hr E. apply mark_success_inr in E. rewrite Hr in E.
  destruct E as [_ ->]. eexists.
  split; [apply lookup_insert_eq|]. simpl.
  repeat (split; [done|]).
  split; [by destruct (downloaded_at r)|].
  split; [by destruct (filename r)|].
  repeat (split; [done|]).
  intros id Hid. by rewrite lookup_insert_ne.
Qed.

Lemma mark_success_fields_witness :
  ∃ tbl' r',
    mark_success Sample.same_bytes_world 1001 Sample.two_rows 1
      (str "Hello") empty_meta Sample.tiny_pdf (str "abc") = inr tbl'
    ∧ tbl' !! 1%N = Some r'
    ∧ processed r' = Some true
    ∧ process_attempts r' = 1.
Proof.
  destruct (mark_success Sample.same_bytes_world 1001 Sample.two_rows 1
              (str "Hello") empty_meta Sample.tiny_pdf (str "abc"))
    as [e|tbl'] eqn:E.
  - vm_compute in E. discriminate E.
  - destruct (mark_success_fields Sample.same_bytes_world 1001 Sample.two_rows
                tbl' 1 (Sample.fresh_row (str "http://host/a")) (str "Hello")
                empty_meta Sample.tiny_pdf (str "abc"))
      as (r' & Hl & _ & Hp & _ & Ha & _).
    + reflexivity.
    + exact E.
    + exists tbl', r'. auto.
Defined.

(** C7: when the failure write goes through, it has changed three fields
    of the row [doc_id]: [process_attempts] is one more, [last_error] is
    the first 800 characters of the message, [processed] is false.
    [processed_at], [raw_text], [sha256], [downloaded_at], [bytes], [mime],
    [filename] and [pdf_url] are as before, the row keeps its [id], and no
    other row changes. *)
Theorem mark_failure_frame W (tbl tbl' : Table) doc_id r err_msg :
  tbl !! doc_id = Some r →
  mark_failure W tbl doc_id err_msg = inr tbl' →
  ∃ r',
    tbl' !! doc_id = Some r'
    ∧ process_attempts r' = process_attempts r + 1
    ∧ last_error r' = Some (take 800 err_msg)
    ∧ (length (take 800 err_msg) <= 800)%nat
    ∧ processed r' = Some false
    ∧ processed_at r' = processed_at r
    ∧ raw_text r' = raw_text r
    ∧ sha256 r' = sha256 r
    ∧ downloaded_at r' = downloaded_at r
    ∧ bytes r' = bytes r
    ∧ mime r' = mime r
    ∧ filename r' = filename r
    ∧ pdf_url r' = pdf_url r
    ∧ dom tbl' = dom tbl
    ∧ ∀ id, id <> doc_id → tbl' !! id = tbl !! id.
Proof.
  intros Hr ->%mark_failure_inr. eexists.
  split; [by rewrite lookup_alter_eq, Hr|]. simpl.
  do 2 (split; [done|]). split; [rewrite length_take; lia|].
  repeat (split; [done|]).
  split; [apply dom_alter_L|].
  intros id Hid. by rewrite lookup_alter_ne.
Qed.

Lemma mark_failure_frame_witness :
  ∃ tbl' r',
    mark_failure Sample.same_bytes_world
      (<[1%N := Sample.done_row (str "http://host/a")]> Sample.two_rows)
      1 (str "ValueError: PDF too large") = inr tbl'
    ∧ tbl' !! 1%N = Some r'
    ∧ process_attempts r' = 2
    ∧ processed_at r' = Some 7.
Proof.
  destruct (mark_failure Sample.same_bytes_world
              (<[1%N := Sample.done_row (str "http://host/a")]> Sample.two_rows)
              1 (str "ValueError: PDF too large")) as [e|tbl'] eqn:E.
  - vm_compute in E. discriminate E.
  - destruct (mark_failure_frame Sample.same_bytes_world
                (<[1%N := Sample.done_row (str "http://host/a")]> Sample.two_rows)
                tbl' 1 (Sample.done_row (str "http://host/a"))
                (str "ValueError: PDF too large"))
      as (r' & Hl & Ha & _ & _ & _ & Hp & _).
    + reflexivity.
    + exact E.
    + exists tbl', r'. auto.
Defined.

(** ** Orchestrator *)

Section Batch.

Variable W : World.
Variable cfg : Settings.
Variable me : nat.
Implicit Types (st : batch_state) (tbl : Table) (id doc_id : N).

(** A failure that is recorded: the write went through. *)
Lemma record_failure_inr st st' doc_id err :
  record_failure W st doc_id err = inr st' →
  st' = {| table := alter (failure_row (take 800 err)) doc_id (table st);
           success := success st; failures := failures st + 1 |}.
Proof.
  unfold record_failure, begin_nested.
  destruct (mark_failure W (table st) doc_id err) as [e|t] eqn:E; [done|].
  intros [= <-]. by rewrite (mark_failure_inr _ _ _ _ _ E).
Qed.

Lemma record_failure_accepted st t doc_id err :
  mark_failure W (table st) doc_id err = inr t →
  record_failure W st doc_id err
  = inr {| table := t; success := success st; failures := failures st + 1 |}.
Proof. intros E. unfold record_failure, begin_nested. by rewrite E. Qed.

(** A failure write that raises ends the turn with its exception. *)
Lemma record_failure_refused st e doc_id err :
  mark_failure W (table st) doc_id err = inl e →
  record_failure W st doc_id err = inl e.
Proof. intros E. unfold record_failure, begin_nested. by rewrite E. Qed.

(** The three ways a turn of the row loop returns. *)
Lemma process_row_cases now_ st st' doc_id url :
  process_row W cfg now_ st (doc_id, url) = inr st' →
  (∃ err,
     st' = {| table := alter (failure_row (take 800 err)) doc_id (table st);
              success := success st; failures := failures st + 1 |})
  ∨ (st' = {| table := table st; success := success st + 1;
              failures := failures st |}
     ∧ table st !! doc_id = None)
  ∨ (∃ r data m text sha,
       table st !! doc_id = Some r
       ∧ sha256_taken (table st) doc_id sha = false
       ∧ st' = {| table := <[doc_id := success_row now_ text m data sha r]>
                             (table st);
                  success := success st + 1; failures := failures st |}).
Proof.
  unfold process_row.
  destruct (fetch_and_extract W cfg url) as [e|[[[data m] text] sha]].
  { intros ->%record_failure_inr. left. eauto. }
  unfold begin_nested.
  destruct (mark_success _ _ _ _ _ _ _ _) as [e|t] eqn:E.
  - destruct (exn_type e); try done;
      intros ->%record_failure_inr; left; eauto.
  - intros [= <-]. apply mark_success_inr in E.
    destruct (table st !! doc_id) as [r|] eqn:Hr.
    + destruct E as [Hs ->]. right. right. by exists r, data, m, text, sha.
    + subst t. right. by left.
Qed.

Lemma attempts_alter_failure tbl doc_id err id :
  attempts_of (alter (failure_row err) doc_id tbl) id
  = (fun a => a + if bool_decide (id = doc_id) then 1 else 0)
      <$> attempts_of tbl id.
Proof.
  unfold attempts_of. case_bool_decide as Hid.
  - subst id. rewrite lookup_alter_eq. by destruct (tbl !! doc_id).
  - rewrite lookup_alter_ne by done.
    destruct (tbl !! id); simpl; [|done]. f_equal. lia.
Qed.

Lemma attempts_mark_failure tbl tbl' doc_id err id :
  mark_failure W tbl doc_id err = inr tbl' →
  attempts_of tbl' id
  = (fun a => a + if bool_decide (id = doc_id) then 1 else 0)
      <$> attempts_of tbl id.
Proof. intros ->%mark_failure_inr. apply attempts_alter_failure. Qed.

Lemma attempts_mark_success now_ tbl tbl' doc_id text m data sha id :
  mark_success W now_ tbl doc_id text m data sha = inr tbl' →
  attempts_of tbl' id
  = (fun a => a + if bool_decide (id = doc_id) then 1 else 0)
      <$> attempts_of tbl id.
Proof.
  intros E%mark_success_inr. unfold attempts_of.
  destruct (tbl !! doc_id) as [r|] eqn:Hr.
  - destruct E as [_ ->]. case_bool_decide as Hid.
    + subst id. by rewrite lookup_insert_eq, Hr.
    + rewrite lookup_insert_ne by done.
      destruct (tbl !! id); simpl; [|done]. f_equal. lia.
  - subst tbl'. case_bool_decide as Hid.
    + subst id. by rewrite Hr.
    + destruct (tbl !! id); simpl; [|done]. f_equal. lia.
Qed.

(** One outcome, success or failure, adds one to the row and leaves the
    counters of the other rows alone. *)
Lemma process_row_attempts now_ st st' doc_id url id :
  process_row W cfg now_ st (doc_id, url) = inr st' →
  attempts_of (table st') id
  = (fun a => a + if bool_decide (id = doc_id) then 1 else 0)
      <$> attempts_of (table st) id.
Proof.
  unfold process_row.
  destruct (fetch_and_extract W cfg url) as [e|[[[data m] text] sha]].
  { intros ->%record_failure_inr. apply attempts_alter_failure. }
  unfold begin_nested.
  destruct (mark_success _ _ _ _ _ _ _ _) as [e|t] eqn:E.
  - destruct (exn_type e); try done;
      intros ->%record_failure_inr; apply attempts_alter_failure.
  - intros [= <-]. simpl. by eapply attempts_mark_success.
Qed.

Lemma process_rows_attempts now_ rows st st' id :
  process_rows W cfg now_ st rows = inr st' →
  attempts_of (table st') id
  = (fun a => a + Z.of_nat (count_occ N.eq_dec (ids rows) id))
      <$> attempts_of (table st) id.
Proof.
  revert st. induction rows as [|[doc_id url] rows IH]; intros st;
    cbn [process_rows].
  - intros [= <-]. destruct (attempts_of (table st) id); simpl; [|done].
    f_equal. lia.
  - destruct (process_row W cfg now_ st (doc_id, url)) as [e|st1] eqn:E1;
      [done|].
    intros E. rewrite (IH _ E), (process_row_attempts _ _ _ _ _ _ E1).
    destruct (attempts_of (table st) id); simpl; [|done]. f_equal.
    destruct (N.eq_dec doc_id id) as [->|Hne]; case_bool_decide;
      try congruence; lia.
Qed.

Lemma fetch_batch_rows locks0 tbl rows locks' :
  fetch_batch cfg me locks0 tbl = inr (rows, locks') →
  ∃ l, l `sublist_of` candidates cfg tbl
       ∧ rows = select_id_url <$> l
       ∧ Z.of_nat (length l) <= BATCH_SIZE cfg.
Proof.
  unfold fetch_batch.
  destruct (Z.ltb_spec (BATCH_SIZE cfg) 0) as [?|HB]; [done|].
  destruct (lock_rows_sublist me (Z.to_nat (BATCH_SIZE cfg)) locks0
              (candidates cfg tbl)) as [l (Hs & E & Hl)].
  intros [= E']. rewrite E' in E. simpl in E.
  exists l. split; [done|]. split; [done|lia].
Qed.

Lemma fetch_batch_NoDup locks0 tbl rows locks' :
  fetch_batch cfg me locks0 tbl = inr (rows, locks') → NoDup (ids rows).
Proof.
  intros (l & Hs & -> & _)%fetch_batch_rows. rewrite ids_select.
  eapply sublist_NoDup; [apply candidates_NoDup|by apply sublist_fmap].
Qed.

Lemma count_occ_NoDup (l : list N) id :
  NoDup l →
  Z.of_nat (count_occ N.eq_dec l id) = if bool_decide (id ∈ l) then 1 else 0.
Proof.
  intros HN%NoDup_ListNoDup.
  pose proof (proj1 (List.NoDup_count_occ N.eq_dec l) HN id) as Hle.
  case_bool_decide as Hin.
  - apply list_elem_of_In, (count_occ_In N.eq_dec) in Hin. lia.
  - rewrite list_elem_of_In, (count_occ_not_In N.eq_dec) in Hin. lia.
Qed.

(** A committed batch adds one to each row it claimed, and nothing to
    the others. *)
Lemma process_once_attempts batch_no tbl tbl' counts :
  process_once W cfg me batch_no tbl = inr (tbl', counts) →
  ∃ rows locks',
    fetch_batch cfg me (row_locks W batch_no) tbl = inr (rows, locks')
    ∧ ∀ id, attempts_of tbl' id
            = (fun a => a + if bool_decide (id ∈ ids rows) then 1 else 0)
                <$> attempts_of tbl id.
Proof.
  unfold process_once.
  destruct (fetch_batch cfg me (row_locks W batch_no) tbl)
    as [e|[rows locks']] eqn:EF; [done|].
  intros E. exists rows, locks'. split; [done|]. intros id.
  rewrite <- (count_occ_NoDup _ _ (fetch_batch_NoDup _ _ _ _ EF)).
  destruct rows as [|row rows].
  - injection E as <- _. simpl.
    destruct (attempts_of tbl id); simpl; [|done]. f_equal. lia.
  - destruct (process_rows W cfg (now W batch_no) _ (row :: rows))
      as [e|st] eqn:EP; [done|].
    injection E as <- _. by rewrite (process_rows_attempts _ _ _ _ _ EP).
Qed.

Lemma process_once_size batch_no tbl tbl' n s f :
  process_once W cfg me batch_no tbl = inr (tbl', (n, s, f)) →
  0 <= n <= BATCH_SIZE cfg.
Proof.
  unfold process_once.
  destruct (fetch_batch cfg me (row_locks W batch_no) tbl)
    as [e|[rows locks']] eqn:EF; [done|].
  apply fetch_batch_rows in EF as (l & _ & -> & Hl).
  rewrite <- (length_fmap select_id_url) in Hl.
  destruct (select_id_url <$> l) as [|row rows].
  - intros [= <- <- <- <-]. simpl in Hl. lia.
  - destruct (process_rows _ _ _ _ _) as [e|st]; [done|].
    intros [= <- <- <- <-]. cbn [length] in *. lia.
Qed.

End Batch.

Section Run.

Variable W : World.
Variable cfg : Settings.
Variable me : nat.
Implicit Types (tbl : Table) (id : N).

Lemma locked_by_other_insert (l : gmap N nat) id id' :
  locked_by_other me l id = false →
  locked_by_other me (<[id := me]> l) id' = locked_by_other me l id'.
Proof.
  unfold locked_by_other. destruct (decide (id = id')) as [->|Hne].
  - rewrite lookup_insert_eq. intros ->. apply negb_false_iff, Nat.eqb_refl.
  - by rewrite lookup_insert_ne.
Qed.

(** With room for all of them, the claim returns every candidate that no
    other transaction has locked. *)
Lemma lock_rows_all limit (l : gmap N nat) (cands : list (N * Row)) :
  (length (List.filter (fun p => negb (locked_by_other me l (fst p))) cands)
   <= limit)%nat →
  fst (lock_rows me limit l cands)
  = select_id_url
      <$> List.filter (fun p => negb (locked_by_other me l (fst p))) cands.
Proof.
  revert limit l. induction cands as [|[id r] rest IH]; intros limit l.
  - by destruct limit.
  - cbn [List.filter fst]. destruct (locked_by_other me l id) eqn:Hid;
      cbn [negb]; intros Hn.
    + destruct limit as [|k].
      * destruct (List.filter _ rest); [done|simpl in Hn; lia].
      * cbn [lock_rows]. rewrite Hid. by apply IH.
    + destruct limit as [|k]; [simpl in Hn; lia|].
      cbn [lock_rows]. rewrite Hid.
      specialize (IH k (<[id := me]> l)).
      destruct (lock_rows me k (<[id:=me]> l) rest) as [rows l'].
      assert (E : List.filter
                    (fun p => negb (locked_by_other me (<[id:=me]> l) (fst p)))
                    rest
                  = List.filter
                      (fun p => negb (locked_by_other me l (fst p))) rest).
      { apply filter_ext. intros p. by rewrite locked_by_other_insert. }
      rewrite E in IH. simpl in *. rewrite IH; [done|lia].
Qed.

Lemma main_loop_sizes fuel tbl bn tr ts tf sizes res :
  main_loop W cfg me fuel tbl bn tr ts tf sizes = Some (inr res) →
  ∃ k last,
    batch_sizes res = sizes ++ replicate k (BATCH_SIZE cfg) ++ [last]
    ∧ (last = 0 ∨ last < BATCH_SIZE cfg)
    ∧ batch_no_ res = bn + Z.of_nat k + 1.
Proof.
  revert tbl bn tr ts tf sizes.
  induction fuel as [|fuel IH]; intros tbl bn tr ts tf sizes; [done|].
  cbn [main_loop].
  destruct (process_once W cfg me (bn + 1) tbl)
    as [e|[tbl' [[n s] f]]] eqn:EP; [done|].
  pose proof (process_once_size _ _ _ _ _ _ _ _ _ EP) as Hn.
  destruct (Z.eqb_spec n 0) as [->|Hn0].
  { intros [= <-]. exists O, 0. simpl. split; [done|]. split; [by left|lia]. }
  destruct (Z.ltb_spec n (BATCH_SIZE cfg)) as [Hlt|Hge].
  { intros [= <-]. exists O, n. simpl. split; [done|]. split; [by right|lia]. }
  intros E. apply IH in E as (k & last & E1 & E2 & E3).
  exists (S k), last. assert (n = BATCH_SIZE cfg) as -> by lia.
  split; [|split; [done|lia]].
  rewrite E1. simpl. by rewrite <- app_assoc.
Qed.

Lemma main_loop_monotone fuel tbl bn tr ts tf sizes res id a :
  main_loop W cfg me fuel tbl bn tr ts tf sizes = Some (inr res) →
  attempts_of tbl id = Some a →
  ∃ a', attempts_of (final_table res) id = Some a' ∧ a <= a'.
Proof.
  revert tbl bn tr ts tf sizes a.
  induction fuel as [|fuel IH]; intros tbl bn tr ts tf sizes a; [done|].
  cbn [main_loop].
  destruct (process_once W cfg me (bn + 1) tbl)
    as [e|[tbl' [[n s] f]]] eqn:EP; [done|].
  apply process_once_attempts in EP as (rows & locks' & _ & HA).
  intros E Ha.
  assert (∃ a1, attempts_of tbl' id = Some a1 ∧ a <= a1) as (a1 & Ha1 & Hle).
  { rewrite HA, Ha. simpl. eexists. split; [done|]. case_bool_decide; lia. }
  destruct (n =? 0); [|destruct (n <? BATCH_SIZE cfg)].
  - injection E as <-. simpl. eauto.
  - injection E as <-. simpl. eauto.
  - destruct (IH _ _ _ _ _ _ _ E Ha1) as (a' & Ha' & Hle').
    exists a'. split; [done|lia].
Qed.

(** A first batch that is empty or short ends the run, whatever the
    fuel. *)
Lemma main_short_batch fuel tbl tbl' n s f :
  process_once W cfg me 1 tbl = inr (tbl', (n, s, f)) →
  n = 0 ∨ n < BATCH_SIZE cfg →
  ∃ res, main W cfg me (S fuel) tbl = Some (inr res)
         ∧ final_table res = tbl'
         ∧ batch_sizes res = [n]
         ∧ batch_no_ res = 1
         ∧ total_rows res = n.
Proof.
  intros EP Hn. unfold main. cbn [main_loop].
  change (0 + 1) with 1. rewrite EP.
  destruct (Z.eqb_spec n 0) as [->|Hn0]; [by eexists|].
  destruct (Z.ltb_spec n (BATCH_SIZE cfg)) as [Hlt|Hge]; [by eexists|lia].
Qed.

(** A first batch that raises ends the run with its exception. *)
Lemma main_first_batch_raises fuel tbl e :
  process_once W cfg me 1 tbl = inl e →
  main W cfg me (S fuel) tbl = Some (inl e).
Proof.
  intros EP. unfold main. cbn [main_loop]. change (0 + 1) with 1.
  by rewrite EP.
Qed.

(** A backlog smaller than the batch size is claimed whole by the first
    batch. *)
Lemma fetch_batch_backlog tbl :
  0 <= BATCH_SIZE cfg →
  Z.of_nat (length (claimable cfg me (row_locks W 1) tbl)) <= BATCH_SIZE cfg →
  ∃ locks',
    fetch_batch cfg me (row_locks W 1) tbl
    = inr (select_id_url <$> claimable cfg me (row_locks W 1) tbl, locks').
Proof.
  intros HB HK. unfold fetch_batch.
  destruct (Z.ltb_spec (BATCH_SIZE cfg) 0) as [?|_]; [lia|].
  pose proof (lock_rows_all (Z.to_nat (BATCH_SIZE cfg)) (row_locks W 1)
                (candidates cfg tbl)) as E.
  fold (claimable cfg me (row_locks W 1) tbl) in E.
  destruct (lock_rows _ _ _ _) as [rows locks']. simpl in E.
  rewrite E by lia. by exists locks'.
Qed.

Lemma process_once_backlog tbl tbl' n s f :
  0 <= BATCH_SIZE cfg →
  Z.of_nat (length (claimable cfg me (row_locks W 1) tbl)) <= BATCH_SIZE cfg →
  process_once W cfg me 1 tbl = inr (tbl', (n, s, f)) →
  n = Z.of_nat (length (claimable cfg me (row_locks W 1) tbl)).
Proof.
  intros HB HK. destruct (fetch_batch_backlog tbl HB HK) as [locks' EF].
  unfold process_once. rewrite EF.
  destruct (select_id_url <$> claimable cfg me (row_locks W 1) tbl)
    as [|row rows'] eqn:ER.
  - intros [= <- <- <- <-]. apply fmap_nil_inv in ER. by rewrite ER.
  - destruct (process_rows _ _ _ _ _) as [e|st]; [done|].
    intros [= <- <- <- <-]. f_equal.
    by rewrite <- (length_fmap select_id_url (claimable _ _ _ _)), ER.
Qed.

End Run.

(** *** Termination of the run *)

Section Termination.

Variable W : World.
Variable cfg : Settings.
Variable me : nat.
Implicit Types (st : batch_state) (tbl : Table) (id doc_id : N) (r : Row).

Lemma work_left_insert tbl id r r' :
  tbl !! id = Some r →
  (work_left cfg (<[id := r']> tbl) + attempts_left cfg r
   = work_left cfg tbl + attempts_left cfg r')%nat.
Proof.
  intros Hr. unfold work_left.
  rewrite <- (insert_delete_eq tbl).
  rewrite map_fold_insert_L; [|intros; lia|apply lookup_delete_eq].
  rewrite (map_fold_delete_L _ _ id r tbl); [lia|intros; lia|done].
Qed.

Lemma attempts_left_failure r err :
  eligible cfg r = true →
  (attempts_left cfg (failure_row err r) < attempts_left cfg r)%nat.
Proof.
  intros He. unfold attempts_left. rewrite He.
  apply eligible_spec in He as (_ & _ & Ha).
  destruct (eligible cfg (failure_row err r)); simpl; lia.
Qed.

Lemma attempts_left_success r now_ text m data sha :
  eligible cfg r = true →
  (attempts_left cfg (success_row now_ text m data sha r)
   < attempts_left cfg r)%nat.
Proof.
  intros He. unfold attempts_left. rewrite He.
  apply eligible_spec in He as (_ & _ & Ha).
  replace (eligible cfg (success_row now_ text m data sha r)) with false; [lia|].
  done.
Qed.

(** The outcome of a claimed row is written over the row, and takes from
    what the row has left. *)
Lemma process_row_writes now_ st st' doc_id url r :
  table st !! doc_id = Some r → eligible cfg r = true →
  process_row W cfg now_ st (doc_id, url) = inr st' →
  ∃ r', table st' = <[doc_id := r']> (table st)
        ∧ (attempts_left cfg r' < attempts_left cfg r)%nat.
Proof.
  intros Hr He E.
  destruct (process_row_cases W cfg now_ st st' doc_id url E)
    as [[err ->]|[[-> Hn]|(r0 & data & m & text & sha & Hr0 & _ & ->)]].
  - eexists. cbn [table].
    split; [by apply alter_as_insert|by apply attempts_left_failure].
  - congruence.
  - rewrite Hr in Hr0. injection Hr0 as <-. eexists. cbn [table].
    split; [done|by apply attempts_left_success].
Qed.

Lemma process_rows_work now_ rows st st' :
  NoDup (ids rows) →
  (∀ id, id ∈ ids rows →
         ∃ r, table st !! id = Some r ∧ eligible cfg r = true) →
  process_rows W cfg now_ st rows = inr st' →
  (work_left cfg (table st') + length rows <= work_left cfg (table st))%nat.
Proof.
  revert st. induction rows as [|[doc_id url] rows IH]; intros st HN HE;
    cbn [process_rows].
  - intros [= <-]. simpl. lia.
  - destruct (process_row W cfg now_ st (doc_id, url)) as [e|st1] eqn:E1;
      [done|].
    intros E. simpl in HN. apply NoDup_cons in HN as [Hnot HN].
    destruct (HE doc_id) as (r & Hr & He); [apply list_elem_of_here|].
    destruct (process_row_writes _ _ _ _ _ _ Hr He E1) as (r' & Ht & Hlt).
    pose proof (work_left_insert _ _ _ r' Hr) as Hw. rewrite <- Ht in Hw.
    assert (work_left cfg (table st') + length rows
            <= work_left cfg (table st1))%nat.
    { apply IH; [done| |done]. intros id Hid.
      destruct (HE id) as (r0 & Hr0 & He0); [by apply list_elem_of_further|].
      exists r0. split; [|done]. rewrite Ht, lookup_insert_ne; [done|].
      intros ->. done. }
    simpl. lia.
Qed.

(** A committed batch takes at least as much from the work left as it
    claimed rows. *)
Lemma process_once_work batch_no tbl tbl' n s f :
  process_once W cfg me batch_no tbl = inr (tbl', (n, s, f)) →
  (work_left cfg tbl' + Z.to_nat n <= work_left cfg tbl)%nat.
Proof.
  unfold process_once.
  destruct (fetch_batch cfg me (row_locks W batch_no) tbl)
    as [e|[rows locks']] eqn:EF; [done|].
  pose proof (fetch_batch_NoDup _ _ _ _ _ _ EF) as HN.
  apply fetch_batch_rows in EF as (l & Hs & -> & _).
  destruct (select_id_url <$> l) as [|row rows] eqn:El.
  { intros [= <- <- <- <-]. simpl. lia. }
  destruct (process_rows _ _ _ _ _) as [e|st] eqn:EP; [done|].
  intros [= <- <- <- <-]. rewrite Nat2Z.id.
  apply (process_rows_work _ _ _ _ HN) in EP; [done|].
  intros id Hid. rewrite <- El, ids_select in Hid.
  apply list_elem_of_fmap in Hid as [[i r] [-> Hp]].
  exists r. apply candidates_elem. by eapply elem_of_sublist.
Qed.

Lemma main_loop_ends fuel tbl bn tr ts tf sizes :
  (work_left cfg tbl < fuel)%nat →
  ∃ res, main_loop W cfg me fuel tbl bn tr ts tf sizes = Some res.
Proof.
  revert tbl bn tr ts tf sizes.
  induction fuel as [|fuel IH]; intros tbl bn tr ts tf sizes Hw; [lia|].
  cbn [main_loop].
  destruct (process_once W cfg me (bn + 1) tbl)
    as [e|[tbl' [[n s] f]]] eqn:EP; [eauto|].
  pose proof (process_once_size _ _ _ _ _ _ _ _ _ EP) as Hn.
  apply process_once_work in EP.
  destruct (Z.eqb_spec n 0); [eauto|].
  destruct (n <? BATCH_SIZE cfg); [eauto|].
  apply IH. lia.
Qed.

(** More fuel does not change the result of a run. *)
Lemma main_loop_fuel fuel k tbl bn tr ts tf sizes res :
  main_loop W cfg me fuel tbl bn tr ts tf sizes = Some res →
  main_loop W cfg me (fuel + k) tbl bn tr ts tf sizes = Some res.
Proof.
  revert tbl bn tr ts tf sizes.
  induction fuel as [|fuel IH]; intros tbl bn tr ts tf sizes; [done|].
  cbn [main_loop Nat.add].
  destruct (process_once W cfg me (bn + 1) tbl)
    as [e|[tbl' [[n s] f]]]; [done|].
  destruct (n =? 0); [done|].
  destruct (n <? BATCH_SIZE cfg); [done|]. apply IH.
Qed.

End Termination.



(** Two rows whose URLs give the same bytes, in one batch: the first
    succeeds, the second is refused by the unique index and recorded as a
    failure with one attempt. *)
Example two_rows_same_bytes :
  ∃ tbl' r1 r2,
    process_once Sample.same_bytes_world Sample.cfg 1 1 Sample.two_rows
    = inr (tbl', (2, 1, 1))
    ∧ tbl' !! 1%N = Some r1 ∧ tbl' !! 2%N = Some r2
    ∧ processed r1 = Some true
    ∧ sha256 r1 = Some (Sample.digest Sample.tiny_pdf)
    ∧ processed r2 = Some false
    ∧ process_attempts r2 = 1
    ∧ sha256 r2 = None
    ∧ raw_text r2 = None
    ∧ last_error r2
      = Some (str "IntegrityError: duplicate key value violates unique constraint").
Proof.
  eexists _, _, _. split; [vm_compute; reflexivity|].
  split; [vm_compute; reflexivity|]. split; [vm_compute; reflexivity|].
  repeat split.
Qed.

(** A text with the character U+0000: the store refuses the success write
    with a DataError, which the row loop records as a failure of the
    row. *)
Example nul_text_is_a_failure :
  ∃ tbl' r1,
    process_once Cases.nul_text_world Sample.cfg 1 1
      {[ 1%N := Sample.fresh_row (str "http://host/a") ]}
    = inr (tbl', (1, 0, 1))
    ∧ tbl' !! 1%N = Some r1
    ∧ processed r1 = Some false
    ∧ process_attempts r1 = 1
    ∧ raw_text r1 = None
    ∧ last_error r1
      = Some (str "SQLAlchemyError: (psycopg.DataError) PostgreSQL text fields cannot contain NUL (0x00) bytes").
Proof.
  eexists _, _. split; [vm_compute; reflexivity|].
  split; [vm_compute; reflexivity|]. repeat split.
Qed.

(** A failure message with the character U+0000: the store refuses the
    failure write, nothing catches its DataError, and the batch ends with
    it; the run does too, and nothing is committed. *)
Example nul_message_ends_the_batch :
  ∃ e,
    process_once Cases.nul_message_world Sample.cfg 1 1 Sample.two_rows = inl e
    ∧ exn_type e = SQLAlchemyError (str "DataError")
    ∧ main Cases.nul_message_world Sample.cfg 1 5 Sample.two_rows
      = Some (inl e).
Proof.
  eexists. split; [vm_compute; reflexivity|]. split; [reflexivity|].
  vm_compute. reflexivity.
Qed.

(** A counter at the top of the [int] column: the failure write is refused
    and the batch ends with the DataError. *)
Example full_counter_ends_the_batch :
  ∃ e,
    process_once Cases.gone_world Cases.no_ceiling 1 1 Cases.full_counter
    = inl e
    ∧ exn_type e = SQLAlchemyError (str "DataError").
Proof. eexists. split; [vm_compute; reflexivity|reflexivity]. Qed.

(** C6: every outcome written to a row -- by a [mark_failure] or a
    [mark_success] that goes through -- adds exactly one to that row's
    [process_attempts] and nothing to any other row's; a committed batch
    adds exactly one to each row it claimed and nothing to the others; and
    over a whole run no row's [process_attempts] goes down. *)
Theorem process_attempts_accounting W cfg me :
  (∀ (tbl tbl' : Table) doc_id err id,
     mark_failure W tbl doc_id err = inr tbl' →
     attempts_of tbl' id
     = (fun a => a + if bool_decide (id = doc_id) then 1 else 0)
         <$> attempts_of tbl id)
  ∧ (∀ now_ (tbl tbl' : Table) doc_id text m data sha id,
       mark_success W now_ tbl doc_id text m data sha = inr tbl' →
       attempts_of tbl' id
       = (fun a => a + if bool_decide (id = doc_id) then 1 else 0)
           <$> attempts_of tbl id)
  ∧ (∀ batch_no (tbl tbl' : Table) counts,
       process_once W cfg me batch_no tbl = inr (tbl', counts) →
       ∃ rows locks',
         fetch_batch cfg me (row_locks W batch_no) tbl = inr (rows, locks')
         ∧ ∀ id, attempts_of tbl' id
                 = (fun a => a + if bool_decide (id ∈ ids rows) then 1 else 0)
                     <$> attempts_of tbl id)
  ∧ (∀ fuel (tbl : Table) res id a,
       main W cfg me fuel tbl = Some (inr res) →
       attempts_of tbl id = Some a →
       ∃ a', attempts_of (final_table res) id = Some a' ∧ a <= a').
Proof.
  split; [|split; [|split]].
  - intros. by eapply attempts_mark_failure.
  - intros. by eapply attempts_mark_success.
  - intros. by eapply process_once_attempts.
  - intros fuel tbl res id a. apply main_loop_monotone.
Qed.

Lemma process_attempts_accounting_witness :
  ∃ tbl' counts,
    process_once Sample.same_bytes_world Sample.cfg 1 1 Sample.two_rows
    = inr (tbl', counts)
    ∧ attempts_of tbl' 1 = Some 1
    ∧ attempts_of tbl' 2 = Some 1.
Proof.
  destruct (process_once Sample.same_bytes_world Sample.cfg 1 1 Sample.two_rows)
    as [e|[tbl' counts]] eqn:E.
  - vm_compute in E. discriminate E.
  - destruct (proj1 (proj2 (proj2 (process_attempts_accounting
                Sample.same_bytes_world Sample.cfg 1%nat))) _ _ _ _ E)
      as (rows & locks' & EF & HA).
    exists tbl', counts. split; [reflexivity|].
    vm_compute in EF. injection EF as <- _.
    split; rewrite HA; reflexivity.
Defined.

(** C9: in every run, each claim but the last returned a full batch and
    the last returned an empty or a short one: no claim follows a batch of
    fewer than [BATCH_SIZE] rows.  A first batch that is empty or short
    ends the run at once.  With a batch size of 200 and a backlog of 50
    eligible rows (rows another worker holds locked are not in the backlog
    of this one), the first batch returns exactly 50 rows and the run ends
    after that batch: with the exception of the batch if it raises, with
    50 rows counted and no second claim otherwise.  Every run ends: the
    attempts the eligible rows have left bound the number of full
    batches. *)
Theorem main_stops_after_short_batch W cfg me :
  (∀ fuel (tbl : Table) res,
     main W cfg me fuel tbl = Some (inr res) →
     ∃ k last,
       batch_sizes res = replicate k (BATCH_SIZE cfg) ++ [last]
       ∧ (last = 0 ∨ last < BATCH_SIZE cfg)
       ∧ batch_no_ res = Z.of_nat k + 1)
  ∧ (∀ fuel (tbl tbl' : Table) n s f,
       process_once W cfg me 1 tbl = inr (tbl', (n, s, f)) →
       n = 0 ∨ n < BATCH_SIZE cfg →
       ∃ res, main W cfg me (S fuel) tbl = Some (inr res)
              ∧ final_table res = tbl'
              ∧ batch_sizes res = [n]
              ∧ batch_no_ res = 1)
  ∧ (∀ (tbl : Table),
       BATCH_SIZE cfg = 200 →
       length (claimable cfg me (row_locks W 1) tbl) = 50%nat →
       (∃ rows locks',
          fetch_batch cfg me (row_locks W 1) tbl = inr (rows, locks')
          ∧ length rows = 50%nat)
       ∧ ∀ fuel,
           (∃ e, process_once W cfg me 1 tbl = inl e
                 ∧ main W cfg me (S fuel) tbl = Some (inl e))
           ∨ (∃ res,
                main W cfg me (S fuel) tbl = Some (inr res)
                ∧ batch_sizes res = [50]
                ∧ batch_no_ res = 1
                ∧ total_rows res = 50))
  ∧ (∀ (tbl : Table) k,
       ∃ res, main W cfg me (S (work_left cfg tbl) + k) tbl = Some res).
Proof.
  split; [|split; [|split]]; cycle 3.
  { intros tbl k.
    destruct (main_loop_ends W cfg me (S (work_left cfg tbl)) tbl 0 0 0 0 [])
      as [res E]; [lia|].
    exists res. by apply main_loop_fuel. }
  - intros fuel tbl res E. apply main_loop_sizes in E as (k & last & E1 & E2 & E3).
    exists k, last. split; [done|]. split; [done|lia].
  - intros fuel tbl tbl' n s f EP Hn.
    destruct (main_short_batch W cfg me fuel tbl tbl' n s f EP Hn)
      as (res & E & ? & ? & ? & _). by exists res.
  - intros tbl HB HK. split.
    + destruct (fetch_batch_backlog W cfg me tbl) as [locks' EF]; [lia|lia|].
      exists (select_id_url <$> claimable cfg me (row_locks W 1) tbl), locks'.
      split; [done|]. by rewrite length_fmap.
    + intros fuel.
      destruct (process_once W cfg me 1 tbl) as [e|[tbl' [[n s] f]]] eqn:EP.
      { left. exists e. split; [done|]. by apply main_first_batch_raises. }
      right.
      pose proof (process_once_backlog W cfg me tbl tbl' n s f) as Hn.
      rewrite HK in Hn. specialize (Hn ltac:(lia) ltac:(lia) EP). subst n.
      destruct (main_short_batch W cfg me fuel tbl tbl' _ s f EP)
        as (res & E & _ & ? & ? & ?); [right; lia|]. by exists res.
Qed.

Lemma main_stops_after_short_batch_witness :
  ∃ res,
    main Sample.same_bytes_world Sample.cfg 1 3 (Sample.backlog 50)
    = Some (inr res)
    ∧ batch_sizes res = [50]
    ∧ batch_no_ res = 1
    ∧ total_rows res = 50.
Proof.
  assert (HK : length (claimable Sample.cfg 1
                         (row_locks Sample.same_bytes_world 1)
                         (Sample.backlog 50)) = 50%nat).
  { vm_compute. reflexivity. }
  destruct (proj2 (proj1 (proj2 (proj2 (main_stops_after_short_batch
              Sample.same_bytes_world Sample.cfg 1%nat))) (Sample.backlog 50)
              eq_refl HK) 2%nat) as [(e & E & _)|H].
  - vm_compute in E. discriminate E.
  - exact H.
Defined.

(** * Further properties *)

(** ** More on the downloader *)

#[local] Arguments str : simpl never.

Section Download.

Variable W : World.
Variable cfg : Settings.
Implicit Types (url : pystr) (r : Response) (m : Meta).

(** The state the probe leaves: one call of [sess.head], and in [meta]
    the [Content-Type] of its answer, if there was one. *)
Lemma probe_state url :
  ∃ m0, try_pass (head_probe W cfg url) {| meta := empty_meta; trace := [] |}
        = ({| meta := m0; trace := [EvHead url] |}, inr tt)
        ∧ meta_mime m0 = head_content_type W url
        ∧ (∀ e, sess_head W url = inl e → m0 = empty_meta).
Proof.
  destruct (try_head_probe W cfg url {| meta := empty_meta; trace := [] |})
    as [m0 E].
  exists m0. split; [exact E|].
  revert E. unfold head_content_type.
  cbv beta iota zeta delta [try_pass head_probe mbind DL_bind bind emit lift
    modify when raise ret get_meta put_meta].
  simpl. destruct (sess_head W url) as [e|h]; simpl.
  { intros [= <-]. split; [done|]. by intros. }
  intros E. split; [|by intros].
  repeat (case_match; simplify_eq/=; try done).
Qed.

Lemma download_pdf_split url :
  ∃ m0, meta_mime m0 = head_content_type W url
        ∧ (∀ e, sess_head W url = inl e → m0 = empty_meta)
        ∧ download_pdf_traced W cfg url
          = (let '(s, res) :=
               get_phase W cfg url {| meta := m0; trace := [EvHead url] |} in
             (trace s, res)).
Proof.
  destruct (probe_state url) as (m0 & E & Hm & He).
  exists m0. split; [done|]. split; [done|].
  unfold download_pdf_traced.
  change (download_pdf_body W cfg url)
    with (bind (try_pass (head_probe W cfg url)) (fun _ => get_phase W cfg url)).
  unfold bind at 1. by rewrite E.
Qed.

(** The streaming loop, as a function of the sizes: it raises the size
    error when the bytes read so far and the body together exceed the cap
    (and the body is not empty), and otherwise ends like the transfer. *)
Lemma read_chunks_spec cap chunks err buf read s :
  let total := Z.of_nat (length (concat chunks)) in
  ∃ tr,
    fst (read_chunks W cfg cap chunks err buf read s)
    = {| meta := meta s; trace := trace s ++ tr |}
    ∧ (total = 0 → tr = [])
    ∧ (Forall (fun e => ∃ n, e = EvRead n) tr)
    ∧ snd (read_chunks W cfg cap chunks err buf read s)
      = if (0 <? total) && (cap <? read + total) then inl (too_large_get W cfg)
        else match err with
             | Some e => inl e
             | None => inr (buf ++ concat chunks, read + total)
             end.
Proof.
  revert buf read s. induction chunks as [|chunk rest IH]; intros buf read s.
  - exists []. destruct s as [m t], err as [e|]; unfold raise, ret; simpl;
      rewrite ?app_nil_r, ?Z.add_0_r; repeat split; done.
  - destruct chunk as [|b chunk].
    { cbn [read_chunks concat app]. apply IH. }
    cbn [read_chunks]. set (c := b :: chunk).
    unfold mbind, DL_bind, bind, emit. cbn [fst snd meta trace].
    cbn zeta. rewrite concat_cons, length_app, Nat2Z.inj_add.
    assert (Hc : 0 < Z.of_nat (length c)) by (subst c; simpl; lia).
    clearbody c.
    destruct (Z.gtb_spec (read + Z.of_nat (length c)) cap) as [Hgt|Hle].
    + exists [EvRead (length c)]. unfold raise. cbn [fst snd].
      split; [done|]. split; [intros; lia|].
      split; [repeat constructor; eauto|].
      replace (0 <? _) with true by (symmetry; apply Z.ltb_lt; lia).
      replace (cap <? _) with true by (symmetry; apply Z.ltb_lt; lia).
      done.
    + destruct (IH (buf ++ c) (read + Z.of_nat (length c))
                  {| meta := meta s; trace := trace s ++ [EvRead (length c)] |})
        as (tr & E1 & E0 & EF & E2).
      exists (EvRead (length c) :: tr). cbn [meta trace] in E1.
      split; [by rewrite E1, <- app_assoc|]. split; [intros; lia|].
      split; [constructor; eauto|].
      rewrite E2. replace (0 <? Z.of_nat (length c) + _) with true
        by (symmetry; apply Z.ltb_lt; lia).
      rewrite andb_true_l, <- !Z.add_assoc, <- !app_assoc.
      destruct (Z.ltb_spec 0 (Z.of_nat (length (concat rest)))) as [Hp|Hz];
        [done|].
      assert (Hn : concat rest = []).
      { destruct (concat rest); [done|simpl in Hz; lia]. }
      rewrite Hn. simpl length. rewrite Z.add_0_r, andb_false_l.
      replace (cap <? _) with false by (symmetry; apply Z.ltb_ge; lia).
      done.
Qed.

Lemma get_phase_get_raises url e s :
  sess_get W url = inl e →
  get_phase W cfg url s
  = ({| meta := meta s; trace := trace s ++ [EvGet url] |}, inl e).
Proof.
  intros HG.
  cbv beta iota zeta delta [get_phase mbind DL_bind bind emit lift].
  simpl. by rewrite HG.
Qed.

Lemma raise_for_status_cases r s :
  if error_status (status_code r)
  then ∃ e, raise_for_status r s = (s, inl e)
            ∧ exn_type e = OtherException (str "HTTPError")
  else raise_for_status r s = (s, inr tt).
Proof.
  unfold error_status, raise_for_status, raise, ret.
  destruct (Nat.leb_spec 400 (status_code r)),
    (Nat.ltb_spec (status_code r) 500), (Nat.ltb_spec (status_code r) 600),
    (Nat.leb_spec 500 (status_code r)); simpl; eauto; lia.
Qed.

Lemma get_phase_status url r s :
  sess_get W url = inr r → error_status (status_code r) = true →
  ∃ e, get_phase W cfg url s
       = ({| meta := meta s; trace := trace s ++ [EvGet url] |}, inl e)
       ∧ exn_type e = OtherException (str "HTTPError").
Proof.
  intros HG HS.
  pose proof (raise_for_status_cases r
                {| meta := meta s; trace := trace s ++ [EvGet url] |}) as HR.
  rewrite HS in HR. destruct HR as (e & HR & He). exists e. split; [|done].
  cbv beta iota zeta delta [get_phase mbind DL_bind bind emit lift].
  simpl. by rewrite HG, HR.
Qed.

Lemma get_phase_run url r m0 t0 :
  sess_get W url = inr r → error_status (status_code r) = false →
  let m1 := meta_at_read W url r m0 in
  let s1 := {| meta := m1; trace := t0 ++ [EvGet url] |} in
  get_phase W cfg url {| meta := m0; trace := t0 |}
  = if truthy (meta_mime m1)
       && negb (contains (str "pdf") (lower W (or_empty (meta_mime m1))))
    then (s1, inl (Exn ValueError
                     (str "Unexpected content-type: "
                      ++ or_empty (meta_mime m1))))
    else
      let '(s', res) :=
        read_chunks W cfg (byte_cap cfg) (body r) (body_error r) [] 0 s1 in
      match res with
      | inl e => (s', inl e)
      | inr (data, read) =>
          let m2 :=
            set_content_length
              (if read =? 0 then
                 if Z.of_nat (length data) =? 0
                 then meta_content_length (meta s')
                 else Some (Z.of_nat (length data))
               else Some read) (meta s') in
          ({| meta := m2; trace := trace s' |}, inr (data, m2))
      end.
Proof.
  intros HG HS m1 s1.
  pose proof (raise_for_status_cases r
                {| meta := m0; trace := t0 ++ [EvGet url] |}) as HR.
  rewrite HS in HR.
  cbv beta iota zeta delta [get_phase mbind DL_bind bind emit lift modify
    when get_meta put_meta mret DL_ret ret raise].
  cbn [meta trace]. rewrite HG, HR. subst s1 m1. unfold meta_at_read.
  cbn [meta trace].
  destruct (truthy (meta_filename m0)); cbn [negb meta trace meta_mime set_mime
    set_filename meta_filename];
    (destruct (_ && _); [done|]);
    destruct (read_chunks _ _ _ _ _ _ _ _) as [s' [e|[data read]]]; done.
Qed.

End Download.

Section DownloadProperties.

Variable W : World.
Variable cfg : Settings.
Implicit Types (url : pystr) (r : Response) (m : Meta).

Lemma download_pdf_inr url data m :
  download_pdf W cfg url = inr (data, m) →
  ∃ r m0,
    sess_get W url = inr r
    ∧ error_status (status_code r) = false
    ∧ meta_mime m0 = head_content_type W url
    ∧ (∀ e, sess_head W url = inl e → m0 = empty_meta)
    ∧ (truthy (meta_mime (meta_at_read W url r m0))
       && negb (contains (str "pdf")
                  (lower W (or_empty (meta_mime (meta_at_read W url r m0)))))
       = false)
    ∧ body_error r = None
    ∧ data = concat (body r)
    ∧ ((0 <? Z.of_nat (length data))
       && (byte_cap cfg <? Z.of_nat (length data)) = false)
    ∧ m = set_content_length
            (if Z.of_nat (length data) =? 0
             then meta_content_length (meta_at_read W url r m0)
             else Some (Z.of_nat (length data)))
            (meta_at_read W url r m0).
Proof.
  unfold download_pdf.
  destruct (download_pdf_split W cfg url) as (m0 & Hm & He & ->).
  destruct (sess_get W url) as [e|r] eqn:HG.
  { by rewrite (get_phase_get_raises W cfg url e). }
  destruct (error_status (status_code r)) eqn:HS.
  { destruct (get_phase_status W cfg url r
                {| meta := m0; trace := [EvHead url] |} HG HS) as (e & -> & _).
    by simpl. }
  rewrite (get_phase_run W cfg url r m0 [EvHead url] HG HS). cbv zeta.
  set (wrong := _ && negb _).
  destruct wrong eqn:HT; [by simpl|].
  destruct (read_chunks_spec W cfg (byte_cap cfg) (body r) (body_error r) [] 0
              {| meta := meta_at_read W url r m0;
                 trace := [EvHead url] ++ [EvGet url] |})
    as (tr & E1 & _ & _ & E2).
  destruct (read_chunks _ _ _ _ _ _ _ _) as [s' res]. simpl in E1, E2.
  subst s' res. rewrite Z.add_0_l.
  set (over := (0 <? _) && (byte_cap cfg <? _)).
  destruct over eqn:HC; [by simpl|].
  destruct (body_error r) as [e|] eqn:HE; [by simpl|].
  simpl. intros [= <- <-].
  exists r, m0. repeat (split; [done|]).
  destruct (Z.of_nat (length (concat (body r))) =? 0); done.
Qed.

End DownloadProperties.

Section DownloadTheorems.

Variable W : World.
Variable cfg : Settings.
Implicit Types (url : pystr) (r : Response) (m : Meta).

(** X2: a GET request that raises, or that is answered with a 4xx or 5xx
    status, fails the download with that error (an HTTPError for the
    status) after the two requests, before any byte of the body is read,
    whatever the probe found. *)
Theorem download_pdf_get_failure url :
  (∀ e, sess_get W url = inl e →
        download_pdf_traced W cfg url = ([EvHead url; EvGet url], inl e))
  ∧ (∀ r, sess_get W url = inr r →
          error_status (status_code r) = true →
          ∃ e, download_pdf_traced W cfg url
               = ([EvHead url; EvGet url], inl e)
               ∧ exn_type e = OtherException (str "HTTPError")).
Proof.
  destruct (download_pdf_split W cfg url) as (m0 & _ & _ & ->). split.
  - intros e HG. by rewrite (get_phase_get_raises W cfg url e).
  - intros r HG HS.
    destruct (get_phase_status W cfg url r
                {| meta := m0; trace := [EvHead url] |} HG HS) as (e & -> & He).
    by exists e.
Qed.

(** X3: a GET answered with a [Content-Type] that does not contain "pdf"
    (in any case) fails the download with a ValueError naming that type,
    before any byte of the body is read. *)
Theorem download_pdf_wrong_content_type url r ct :
  sess_get W url = inr r →
  error_status (status_code r) = false →
  content_type (headers r) = Some ct → ct <> [] →
  contains (str "pdf") (lower W ct) = false →
  download_pdf_traced W cfg url
  = ([EvHead url; EvGet url],
     inl (Exn ValueError (str "Unexpected content-type: " ++ ct))).
Proof.
  intros HG HS Hct Hne Hpdf.
  destruct (download_pdf_split W cfg url) as (m0 & _ & _ & ->).
  rewrite (get_phase_run W cfg url r m0 [EvHead url] HG HS). cbv zeta.
  assert (Hm : meta_mime (meta_at_read W url r m0) = Some ct).
  { unfold meta_at_read. simpl. rewrite Hct. unfold or_else.
    by destruct ct. }
  rewrite Hm. simpl or_empty. rewrite Hpdf.
  replace (truthy (Some ct)) with true by (by destruct ct). done.
Qed.

(** X4: a body longer than the cap fails the download with the size error of
    the streaming loop, also when the transfer would have broken later. *)
Theorem download_pdf_body_over_cap url r ct :
  sess_get W url = inr r →
  error_status (status_code r) = false →
  content_type (headers r) = Some ct → ct <> [] →
  contains (str "pdf") (lower W ct) = true →
  Z.max 0 (byte_cap cfg) < Z.of_nat (length (concat (body r))) →
  download_pdf W cfg url = inl (too_large_get W cfg).
Proof.
  intros HG HS Hct Hne Hpdf Hlen. unfold download_pdf.
  destruct (download_pdf_split W cfg url) as (m0 & _ & _ & ->).
  rewrite (get_phase_run W cfg url r m0 [EvHead url] HG HS). cbv zeta.
  assert (Hm : meta_mime (meta_at_read W url r m0) = Some ct).
  { unfold meta_at_read. simpl. rewrite Hct. unfold or_else.
    by destruct ct. }
  rewrite Hm. simpl or_empty. rewrite Hpdf, andb_false_r.
  destruct (read_chunks_spec W cfg (byte_cap cfg) (body r) (body_error r) [] 0
              {| meta := meta_at_read W url r m0;
                 trace := [EvHead url] ++ [EvGet url] |})
    as (tr & E1 & _ & _ & E2).
  destruct (read_chunks _ _ _ _ _ _ _ _) as [s' res]. simpl in E2.
  subst res. rewrite Z.add_0_l.
  replace (0 <? _) with true by (symmetry; apply Z.ltb_lt; lia).
  replace (byte_cap cfg <? _) with true by (symmetry; apply Z.ltb_lt; lia).
  done.
Qed.

(** X5: what a download that returns has done: the GET was answered with a
    status below 400 or above 599, the transfer ended without error, the
    bytes returned are the chunks of the body in order, they are no more
    than the cap, and when there are any [content_length] is their
    number. *)
Theorem download_pdf_success_bytes url data m :
  download_pdf W cfg url = inr (data, m) →
  ∃ r, sess_get W url = inr r
       ∧ error_status (status_code r) = false
       ∧ body_error r = None
       ∧ data = concat (body r)
       ∧ Z.of_nat (length data) <= Z.max 0 (byte_cap cfg)
       ∧ (data <> [] → meta_content_length m = Some (Z.of_nat (length data))).
Proof.
  intros (r & m0 & HG & HS & _ & _ & _ & HE & Hd & HC & ->)%download_pdf_inr.
  exists r. repeat (split; [done|]). split.
  - apply andb_false_iff in HC as [H%Z.ltb_ge|H%Z.ltb_ge]; lia.
  - intros Hne. simpl.
    destruct (Z.eqb_spec (Z.of_nat (length data)) 0) as [H0|]; [|done].
    destruct data; [done|simpl in H0; lia].
Qed.

(** X6: the type a download returns in [mime] is the GET's [Content-Type]
    when it has one, and the one the probe found otherwise; when there is
    one it contains "pdf". *)
Theorem download_pdf_success_mime url data m :
  download_pdf W cfg url = inr (data, m) →
  ∃ r, sess_get W url = inr r
       ∧ meta_mime m
         = or_else (content_type (headers r)) (head_content_type W url)
       ∧ (truthy (meta_mime m) = true →
          contains (str "pdf") (lower W (or_empty (meta_mime m))) = true).
Proof.
  intros (r & m0 & HG & _ & Hm & _ & HT & _ & _ & _ & ->)%download_pdf_inr.
  exists r. split; [done|]. simpl. rewrite Hm. split; [done|].
  simpl in HT. rewrite Hm in HT. intros Ht. rewrite Ht in HT.
  simpl in HT. by apply negb_false_iff in HT.
Qed.

(** X7: when the HEAD request itself raises, a download that returns has its
    file name and its type from the GET alone, and no headers. *)
Theorem download_pdf_without_head url e data m :
  sess_head W url = inl e →
  download_pdf W cfg url = inr (data, m) →
  ∃ r, sess_get W url = inr r
       ∧ meta_filename m
         = guess_filename W url (content_disposition (headers r))
       ∧ meta_mime m = or_else (content_type (headers r)) None
       ∧ meta_headers m = no_headers.
Proof.
  intros HH (r & m0 & HG & _ & _ & He & _ & _ & _ & _ & ->)%download_pdf_inr.
  rewrite (He e HH). by exists r.
Qed.

End DownloadTheorems.

(** X1: the calls of a download, in order: [sess.head(url)] once, then
    [sess.get(url)] once, then chunks taken from the body of the GET and
    nothing else.  The code calls neither method a second time and the
    probe reads no body; the requests the session sends inside one call
    (the adapter's retries, the redirects it follows) are not counted. *)
Theorem download_pdf_call_order W cfg url :
  ∃ reads,
    fst (download_pdf_traced W cfg url) = EvHead url :: EvGet url :: reads
    ∧ Forall (fun e => ∃ n, e = EvRead n) reads.
Proof.
  destruct (download_pdf_split W cfg url) as (m0 & _ & _ & ->).
  destruct (sess_get W url) as [e|r] eqn:HG.
  { rewrite (get_phase_get_raises W cfg url e) by done. by exists []. }
  destruct (error_status (status_code r)) eqn:HS.
  { destruct (get_phase_status W cfg url r
                {| meta := m0; trace := [EvHead url] |} HG HS) as (e & -> & _).
    by exists []. }
  rewrite (get_phase_run W cfg url r m0 [EvHead url] HG HS). cbv zeta.
  set (wrong := _ && negb _). destruct wrong; [by exists []|].
  destruct (read_chunks_spec W cfg (byte_cap cfg) (body r) (body_error r) [] 0
              {| meta := meta_at_read W url r m0;
                 trace := [EvHead url] ++ [EvGet url] |})
    as (tr & E1 & _ & EF & _).
  destruct (read_chunks _ _ _ _ _ _ _ _) as [s' [e|[data read]]];
    simpl in E1; subst s'; by exists tr.
Qed.

Lemma download_pdf_get_failure_witness :
  ∃ e, download_pdf_traced Cases.gone_world Sample.cfg (str "http://host/a")
       = ([EvHead (str "http://host/a"); EvGet (str "http://host/a")], inl e)
       ∧ exn_type e = OtherException (str "HTTPError").
Proof.
  eapply (proj2 (download_pdf_get_failure Cases.gone_world Sample.cfg
                   (str "http://host/a"))); reflexivity.
Defined.

Lemma download_pdf_wrong_content_type_witness :
  download_pdf_traced Cases.html_world Sample.cfg (str "http://host/a")
  = ([EvHead (str "http://host/a"); EvGet (str "http://host/a")],
     inl (Exn ValueError (str "Unexpected content-type: " ++ str "text/html"))).
Proof.
  eapply download_pdf_wrong_content_type; try reflexivity. discriminate.
Defined.

Lemma download_pdf_body_over_cap_witness :
  download_pdf Cases.eight_bytes_world Cases.four_bytes_cap (str "http://host/a")
  = inl (too_large_get Cases.eight_bytes_world Cases.four_bytes_cap).
Proof.
  eapply (download_pdf_body_over_cap _ _ _ _ (str "application/pdf"));
    try reflexivity. discriminate.
Defined.

Lemma download_pdf_success_bytes_witness :
  ∃ data m r,
    download_pdf Cases.eight_bytes_world Sample.cfg (str "http://host/a")
    = inr (data, m)
    ∧ sess_get Cases.eight_bytes_world (str "http://host/a") = inr r
    ∧ data = concat (body r)
    ∧ Z.of_nat (length data) <= Z.max 0 (byte_cap Sample.cfg).
Proof.
  destruct (download_pdf Cases.eight_bytes_world Sample.cfg
              (str "http://host/a")) as [e|[data m]] eqn:E.
  - vm_compute in E. discriminate E.
  - destruct (download_pdf_success_bytes _ _ _ _ _ E)
      as (r & HG & _ & _ & Hd & Hc & _).
    exists data, m, r. auto.
Defined.

Lemma download_pdf_success_mime_witness :
  ∃ data m,
    download_pdf Sample.same_bytes_world Sample.cfg (str "http://host/a")
    = inr (data, m)
    ∧ meta_mime m = Some (str "application/pdf").
Proof.
  destruct (download_pdf Sample.same_bytes_world Sample.cfg
              (str "http://host/a")) as [e|[data m]] eqn:E.
  - vm_compute in E. discriminate E.
  - destruct (download_pdf_success_mime _ _ _ _ _ E) as (r & HG & Hm & _).
    exists data, m. split; [done|]. rewrite Hm.
    injection HG as <-. reflexivity.
Defined.

Lemma download_pdf_without_head_witness :
  ∃ data m,
    download_pdf Cases.eight_bytes_world Sample.cfg (str "http://host/a")
    = inr (data, m)
    ∧ meta_headers m = no_headers.
Proof.
  destruct (download_pdf Cases.eight_bytes_world Sample.cfg
              (str "http://host/a")) as [e|[data m]] eqn:E.
  - vm_compute in E. discriminate E.
  - destruct (download_pdf_without_head Cases.eight_bytes_world Sample.cfg
                (str "http://host/a") Sample.unreachable data m
                eq_refl E) as (r & _ & _ & _ & Hh).
    by exists data, m.
Defined.

(** ** More on file names and on the extractor *)

Lemma strip_trimmed (s : pystr) :
  starts_with_space (strip s) = false ∧ ends_with_space (strip s) = false.
Proof.
  unfold strip. split; [|apply rstrip_no_trailing_space].
  destruct (rstrip_prefix (lstrip s)) as [ws [E _]].
  destruct (rstrip (lstrip s)) as [|c t] eqn:Er; [done|].
  simpl. rewrite <- app_comm_cons in E. by apply lstrip_head in E.
Qed.

(** X8: a file name taken from [Content-Disposition] is the unquoted match
    without white space around it.  An empty header counts as an absent
    one; with no header, there is no name exactly when the path of the URL
    or its last segment is empty. *)
Theorem guess_filename_sources W url :
  (∀ cd g, cd <> [] → re_search_filename W cd = Some g →
     guess_filename W url (Some cd) = Some (strip (unquote W g))
     ∧ starts_with_space (strip (unquote W g)) = false
     ∧ ends_with_space (strip (unquote W g)) = false)
  ∧ (∀ cd, re_search_filename W cd = None →
       guess_filename W url (Some cd) = guess_filename W url None)
  ∧ guess_filename W url (Some []) = guess_filename W url None
  ∧ (guess_filename W url None = None
     ↔ urlparse_path W url = [] ∨ basename W (urlparse_path W url) = []).
Proof.
  split; [|split; [|split]].
  - intros cd g Hne Hg. unfold guess_filename.
    replace (truthy (Some cd)) with true by (by destruct cd).
    simpl or_empty. rewrite Hg. split; [done|]. apply strip_trimmed.
  - intros cd Hg. unfold guess_filename. simpl or_empty. rewrite Hg.
    by destruct (truthy (Some cd)).
  - done.
  - unfold guess_filename. simpl.
    destruct (urlparse_path W url) as [|c p] eqn:Ep; [by split; [left|]|].
    destruct (basename W (c :: p)) eqn:Eb; [by split; [right|]|].
    split; [done|]. by intros [?|?].
Qed.

Lemma guess_filename_sources_witness :
  guess_filename
    (Sample.world (fun _ => inl Sample.unreachable)
                  (fun _ => inl Sample.unreachable)
                  (fun _ => inr (Pages [])))
    (str "http://host/a.pdf") (Some (str "attachment"))
  = guess_filename
      (Sample.world (fun _ => inl Sample.unreachable)
                    (fun _ => inl Sample.unreachable)
                  (fun _ => inr (Pages [])))
      (str "http://host/a.pdf") None.
Proof.
  apply (proj1 (proj2 (guess_filename_sources _ _))). reflexivity.
Defined.

Lemma pages_split (pages : list page) i :
  (∃ texts, pages = map Text texts)
  ∨ ∃ texts pg rest e,
      pages = map Text texts ++ pg :: rest
      ∧ page_failure (i + length texts) pg = Some e.
Proof.
  revert i. induction pages as [|pg pages IH]; intros i.
  - left. by exists [].
  - destruct pg as [e0|e0|t].
    + right. eexists [], (Missing e0), pages, _. split; reflexivity.
    + right. eexists [], (Undecodable e0), pages, _. split; reflexivity.
    + destruct (IH (S i)) as [[texts ->]|(texts & pg' & rest & e & -> & He)].
      * left. by exists (t :: texts).
      * right. exists (t :: texts), pg', rest, e. split; [done|].
        cbn [length]. by rewrite Nat.add_succ_r.
Qed.

Lemma extract_pages_failing total i texts pg rest out_lines e :
  page_failure (i + length texts) pg = Some e →
  extract_pages total i (map Text texts ++ pg :: rest) out_lines = inl e.
Proof.
  revert i out_lines. induction texts as [|t texts IH]; intros i out.
  - cbn [map app extract_pages length]. rewrite Nat.add_0_r.
    destruct pg as [e0|e0|t]; cbn [page_failure]; [by intros [= <-]| |done].
    intros [= <-]. by destruct (is_PdfReadError (exn_type e0)).
  - cbn [map app extract_pages length]. intros He. apply IH.
    by replace (S i + length texts)%nat with (i + S (length texts))%nat by lia.
Qed.

Lemma extract_text_lines_or_fail W pdf_bytes :
  pdf_bytes <> [] →
  (∀ e, PdfReader W pdf_bytes = inl e →
        extract_text W pdf_bytes
        = inl (if is_PdfReadError (exn_type e)
               then Exn ValueError (str "Failed to read PDF: " ++ exn_msg e)
               else e))
  ∧ (∀ e, PdfReader W pdf_bytes = inr (Unlisted e) →
          extract_text W pdf_bytes = inl e)
  ∧ (∀ texts pg rest e,
       PdfReader W pdf_bytes = inr (Pages (map Text texts ++ pg :: rest)) →
       page_failure (S (length texts)) pg = Some e →
       extract_text W pdf_bytes = inl e).
Proof.
  intros Hne. destruct pdf_bytes as [|b bs]; [done|]. split; [|split].
  - intros e HR. unfold extract_text. rewrite HR.
    by destruct (is_PdfReadError (exn_type e)).
  - intros e HR. unfold extract_text. by rewrite HR.
  - intros texts pg rest e HR He. unfold extract_text. rewrite HR.
    by rewrite (extract_pages_failing _ _ _ _ _ _ e).
Qed.

(** X9: a document that cannot be opened, whose pages cannot be listed, or
    one page of which cannot be fetched or decoded, fails the whole
    extraction; the texts of the pages before are not returned.  A
    PdfReadError raised by [PdfReader(...)] or by a page's
    [extract_text()] becomes a ValueError (for a page, with the number of
    the first failing page, counted from 1) and any other exception they
    raise goes through as it is.  What [len(reader.pages)] or the
    iteration over [reader.pages] raises is outside both [try] blocks and
    goes through as it is, a PdfReadError included. *)
Theorem extract_text_failures W pdf_bytes :
  pdf_bytes <> [] →
  (∀ e, PdfReader W pdf_bytes = inl e →
        extract_text W pdf_bytes
        = inl (if is_PdfReadError (exn_type e)
               then Exn ValueError (str "Failed to read PDF: " ++ exn_msg e)
               else e))
  ∧ (∀ e, PdfReader W pdf_bytes = inr (Unlisted e) →
          extract_text W pdf_bytes = inl e)
  ∧ (∀ texts e rest,
       PdfReader W pdf_bytes
       = inr (Pages (map Text texts ++ Undecodable e :: rest)) →
       extract_text W pdf_bytes
       = inl (if is_PdfReadError (exn_type e)
              then Exn ValueError
                       (str "Failed to extract text on page "
                        ++ str_of_nat (S (length texts)) ++ str ": "
                        ++ exn_msg e)
              else e))
  ∧ (∀ texts e rest,
       PdfReader W pdf_bytes
       = inr (Pages (map Text texts ++ Missing e :: rest)) →
       extract_text W pdf_bytes = inl e).
Proof.
  intros Hne.
  destruct (extract_text_lines_or_fail W pdf_bytes Hne) as (H1 & H2 & H3).
  split; [done|]. split; [done|]. split.
  - intros texts e rest HR. by apply (H3 _ _ _ _ HR).
  - intros texts e rest HR. by apply (H3 _ _ _ _ HR).
Qed.

Lemma extract_text_failures_witness :
  extract_text
    (Sample.reader_world
       [Text (Some (str "Hello"));
        Undecodable (Exn PdfReadError (str "bad stream"))])
    Sample.tiny_pdf
  = inl (Exn ValueError
             (str "Failed to extract text on page 2: bad stream")).
Proof.
  apply (proj1 (proj2 (proj2 (extract_text_failures _ Sample.tiny_pdf
                                ltac:(discriminate))))
           [Some (str "Hello")] (Exn PdfReadError (str "bad stream")) []).
  reflexivity.
Defined.

(** An encrypted document: the error of [len(reader.pages)] reaches the
    caller under its own class, not as a ValueError. *)
Example encrypted_document_not_converted :
  extract_text Cases.encrypted_world Sample.tiny_pdf
  = inl (Exn (PdfReadErrorSubclass (str "FileNotDecryptedError"))
             (str "File has not been decrypted")).
Proof. reflexivity. Qed.

(** X10: the extraction returns a text exactly when the input is empty (the
    text is then empty) or the document opens and every page decodes (the
    text is then the trimmed join of the page lines). *)
Theorem extract_text_all_or_nothing W pdf_bytes out :
  extract_text W pdf_bytes = inr out
  ↔ (pdf_bytes = [] ∧ out = [])
    ∨ (pdf_bytes <> []
       ∧ ∃ texts, PdfReader W pdf_bytes = inr (Pages (map Text texts))
                  ∧ out = strip (join PAGE_SEPARATOR
                                   (map (fun t => rstrip (or_empty t)) texts))).
Proof.
  split.
  - destruct pdf_bytes as [|b bs] eqn:Eb.
    { simpl. intros [= <-]. by left. }
    intros E. right. split; [done|]. rewrite <- Eb in *.
    assert (Hne : pdf_bytes <> []) by (by subst).
    destruct (extract_text_lines_or_fail W pdf_bytes Hne) as (H1 & H2 & H3).
    destruct (PdfReader W pdf_bytes) as [e|[e|pages]] eqn:HR.
    { by rewrite (H1 e eq_refl) in E. }
    { by rewrite (H2 e eq_refl) in E. }
    destruct (pages_split pages 1)
      as [[texts ->]|(texts & pg & rest & e & -> & He)].
    + exists texts. split; [done|].
      rewrite (extract_text_lines W pdf_bytes texts Hne HR) in E.
      injection E as <-. by rewrite join_page_lines.
    + by rewrite (H3 _ _ _ _ eq_refl He) in E.
  - intros [[-> ->]|(Hne & texts & HR & ->)]; [done|].
    by rewrite (extract_text_lines W pdf_bytes texts Hne HR), join_page_lines.
Qed.

Lemma extract_text_all_or_nothing_witness :
  extract_text (Sample.reader_world [Text (Some (str "A ")); Text None])
               Sample.tiny_pdf
  = inr (strip (join PAGE_SEPARATOR [str "A"; []])).
Proof.
  apply (proj2 (extract_text_all_or_nothing _ _ _)). right.
  split; [discriminate|]. exists [Some (str "A "); None]. split; reflexivity.
Defined.

(** X11: a text the extraction returns neither begins nor ends with white
    space. *)
Theorem extract_text_trimmed W pdf_bytes out :
  extract_text W pdf_bytes = inr out →
  starts_with_space out = false ∧ ends_with_space out = false.
Proof.
  unfold extract_text. destruct pdf_bytes as [|b bs].
  { by intros [= <-]. }
  destruct (PdfReader W (b :: bs)) as [e|[e|pages]]; [|done|].
  { by destruct (is_PdfReadError (exn_type e)). }
  destruct (extract_pages _ _ _ _) as [e|out_lines]; [done|].
  intros [= <-]. apply strip_trimmed.
Qed.

Lemma extract_text_trimmed_witness :
  starts_with_space (str "A" ++ PAGE_SEPARATOR ++ str "B") = false
  ∧ ends_with_space (str "A" ++ PAGE_SEPARATOR ++ str "B") = false.
Proof.
  apply (extract_text_trimmed
           (Sample.reader_world [Text (Some (str " A ")); Text (Some (str "B  "))])
           Sample.tiny_pdf).
  reflexivity.
Defined.

(** ** More on the claimer *)

Lemma lock_rows_take me limit (l : gmap N nat) (cands : list (N * Row)) :
  fst (lock_rows me limit l cands)
  = select_id_url
      <$> take limit
            (List.filter (fun p => negb (locked_by_other me l (fst p))) cands).
Proof.
  revert limit l. induction cands as [|[id r] rest IH]; intros limit l.
  - by destruct limit.
  - destruct limit as [|k]; [done|].
    cbn [lock_rows List.filter fst].
    destruct (locked_by_other me l id) eqn:Hid; cbn [negb].
    + apply IH.
    + specialize (IH k (<[id := me]> l)).
      destruct (lock_rows me k (<[id:=me]> l) rest) as [rows l'].
      simpl in *. rewrite IH. do 3 f_equal.
      apply filter_ext. intros p. by rewrite locked_by_other_insert.
Qed.

Lemma lock_rows_locks me limit (l : gmap N nat) (cands : list (N * Row)) id :
  snd (lock_rows me limit l cands) !! id
  = if bool_decide (id ∈ ids (fst (lock_rows me limit l cands)))
    then Some me else l !! id.
Proof.
  revert limit l. induction cands as [|[id0 r] rest IH]; intros limit l.
  - by destruct limit.
  - destruct limit as [|k].
    { done. }
    cbn [lock_rows]. destruct (locked_by_other me l id0); [apply IH|].
    specialize (IH k (<[id0 := me]> l)).
    destruct (lock_rows me k (<[id0:=me]> l) rest) as [rows l'].
    simpl in *. rewrite IH. destruct (decide (id = id0)) as [->|Hne].
    + rewrite (bool_decide_eq_true_2 (id0 ∈ id0 :: ids rows))
        by apply list_elem_of_here.
      case_bool_decide; [done|by rewrite lookup_insert_eq].
    + rewrite lookup_insert_ne by done.
      case_bool_decide as H1; case_bool_decide as H2; try done.
      * exfalso. apply H2. by apply list_elem_of_further.
      * exfalso. apply H1. by apply elem_of_cons in H2 as [?|?].
Qed.

Lemma fetch_batch_first_rows_aux cfg me (locks0 : gmap N nat) (tbl : Table) :
  0 <= BATCH_SIZE cfg →
  ∃ locks',
    fetch_batch cfg me locks0 tbl
    = inr (select_id_url
             <$> take (Z.to_nat (BATCH_SIZE cfg)) (claimable cfg me locks0 tbl),
           locks').
Proof.
  intros HB. unfold fetch_batch.
  destruct (Z.ltb_spec (BATCH_SIZE cfg) 0) as [?|_]; [lia|].
  pose proof (lock_rows_take me (Z.to_nat (BATCH_SIZE cfg)) locks0
                (candidates cfg tbl)) as E.
  destruct (lock_rows _ _ _ _) as [rows locks']. simpl in E. subst rows.
  by exists locks'.
Qed.

Lemma fetch_batch_locks_aux cfg me (locks0 : gmap N nat) (tbl : Table)
    rows locks' :
  fetch_batch cfg me locks0 tbl = inr (rows, locks') →
  ∀ id, locks' !! id
        = if bool_decide (id ∈ ids rows) then Some me else locks0 !! id.
Proof.
  unfold fetch_batch. destruct (BATCH_SIZE cfg <? 0); [done|].
  intros [= E] id.
  pose proof (lock_rows_locks me (Z.to_nat (BATCH_SIZE cfg)) locks0
                (candidates cfg tbl) id) as H.
  by rewrite E in H.
Qed.

(** X12: [fetch_batch] returns the first [BATCH_SIZE] rows, by ascending [id],
    among the eligible rows no other transaction has locked: all of them
    when they are fewer. *)
Theorem fetch_batch_first_rows cfg me (locks0 : gmap N nat) (tbl : Table) :
  0 <= BATCH_SIZE cfg →
  ∃ locks',
    fetch_batch cfg me locks0 tbl
    = inr (select_id_url
             <$> take (Z.to_nat (BATCH_SIZE cfg)) (claimable cfg me locks0 tbl),
           locks').
Proof. apply fetch_batch_first_rows_aux. Qed.

Lemma fetch_batch_first_rows_witness :
  ∃ locks',
    fetch_batch {| BATCH_SIZE := 2; MAX_PDF_MB := 30; MAX_ATTEMPTS := 5 |}
                1 {[ 1%N := 2%nat ]} (Sample.backlog 5)
    = inr ([(2%N, Some (str "http://host/2")); (3%N, Some (str "http://host/3"))],
           locks').
Proof.
  destruct (fetch_batch_first_rows
              {| BATCH_SIZE := 2; MAX_PDF_MB := 30; MAX_ATTEMPTS := 5 |}
              1 {[ 1%N := 2%nat ]} (Sample.backlog 5)) as [locks' E].
  - simpl. lia.
  - exists locks'. rewrite E. f_equal.
Defined.

(** X13: after [fetch_batch], the rows it returned are locked by the caller,
    and every other row lock is as before. *)
Theorem fetch_batch_locks cfg me (locks0 : gmap N nat) (tbl : Table)
    rows locks' :
  fetch_batch cfg me locks0 tbl = inr (rows, locks') →
  ∀ id, locks' !! id
        = if bool_decide (id ∈ ids rows) then Some me else locks0 !! id.
Proof. apply fetch_batch_locks_aux. Qed.

Lemma fetch_batch_locks_witness :
  ∃ rows locks',
    fetch_batch Sample.cfg 1 {[ 1%N := 2%nat ]} (Sample.backlog 3)
    = inr (rows, locks')
    ∧ locks' !! 1%N = Some 2%nat
    ∧ locks' !! 2%N = Some 1%nat.
Proof.
  destruct (fetch_batch Sample.cfg 1 {[ 1%N := 2%nat ]} (Sample.backlog 3))
    as [e|[rows locks']] eqn:E.
  - vm_compute in E. discriminate E.
  - exists rows, locks'. split; [done|].
    pose proof (fetch_batch_locks _ _ _ _ _ _ E) as HL.
    vm_compute in E. injection E as <- _.
    split; rewrite HL; reflexivity.
Defined.

Lemma filter_not_taken (l : list (N * Row)) n :
  NoDup l.*1 →
  List.filter (fun p => negb (bool_decide (fst p ∈ (take n l).*1))) l
  = drop n l.
Proof.
  revert n. induction l as [|p l IH]; intros n HN; [by destruct n|].
  apply NoDup_cons in HN as [Hp HN]. destruct n as [|n].
  { rewrite take_0, drop_0. apply forallb_filter_id, forallb_forall.
    intros q _. by rewrite bool_decide_eq_false_2 by apply not_elem_of_nil. }
  cbn [take fmap list_fmap List.filter drop].
  rewrite bool_decide_eq_true_2 by apply list_elem_of_here. cbn [negb].
  rewrite <- (IH n HN). apply filter_ext_in. intros q Hq. f_equal.
  apply bool_decide_ext. rewrite elem_of_cons.
  split; [|by right]. intros [E|?]; [|done].
  exfalso. apply Hp. rewrite <- E. by apply list_elem_of_fmap_2, list_elem_of_In.
Qed.

(** X14: two workers that claim one after the other on a table without locks,
    the first transaction still open, split the eligible rows: the first
    gets the first [BATCH_SIZE] of them, the second the next
    [BATCH_SIZE]. *)
Theorem two_claims_split cfg (tbl : Table) me1 me2 :
  me1 <> me2 → 0 <= BATCH_SIZE cfg →
  let n := Z.to_nat (BATCH_SIZE cfg) in
  ∃ locks1 locks2,
    fetch_batch cfg me1 ∅ tbl
    = inr (select_id_url <$> take n (candidates cfg tbl), locks1)
    ∧ fetch_batch cfg me2 locks1 tbl
      = inr (select_id_url <$> take n (drop n (candidates cfg tbl)), locks2).
Proof.
  intros Hne HB n.
  assert (Hall : claimable cfg me1 ∅ tbl = candidates cfg tbl).
  { unfold claimable. apply forallb_filter_id, forallb_forall.
    intros p _. unfold locked_by_other. by rewrite lookup_empty. }
  destruct (fetch_batch_first_rows_aux cfg me1 ∅ tbl HB) as [locks1 E1].
  rewrite Hall in E1. fold n in E1.
  destruct (fetch_batch_first_rows_aux cfg me2 locks1 tbl HB) as [locks2 E2].
  exists locks1, locks2. split; [done|]. rewrite E2. fold n. do 3 f_equal.
  unfold claimable. rewrite <- (filter_not_taken _ n (candidates_NoDup cfg tbl)).
  f_equal. apply filter_ext. intros p. f_equal. unfold locked_by_other.
  rewrite (fetch_batch_locks_aux _ _ _ _ _ _ E1), ids_select, lookup_empty.
  case_bool_decide; [|done]. apply negb_true_iff, Nat.eqb_neq. done.
Qed.

Lemma two_claims_split_witness :
  ∃ locks1 locks2,
    fetch_batch {| BATCH_SIZE := 2; MAX_PDF_MB := 30; MAX_ATTEMPTS := 5 |}
                1 ∅ (Sample.backlog 3)
    = inr ([(1%N, Some (str "http://host/1")); (2%N, Some (str "http://host/2"))],
           locks1)
    ∧ fetch_batch {| BATCH_SIZE := 2; MAX_PDF_MB := 30; MAX_ATTEMPTS := 5 |}
                  2 locks1 (Sample.backlog 3)
      = inr ([(3%N, Some (str "http://host/3"))], locks2).
Proof.
  destruct (two_claims_split
              {| BATCH_SIZE := 2; MAX_PDF_MB := 30; MAX_ATTEMPTS := 5 |}
              (Sample.backlog 3) 1%nat 2%nat) as (l1 & l2 & E1 & E2).
  - lia.
  - simpl. lia.
  - exists l1, l2. split; [rewrite E1|rewrite E2]; f_equal.
Defined.

(** ** More on the orchestrator *)

Section BatchProperties.

Variable W : World.
Variable cfg : Settings.
Variable me : nat.
Implicit Types (st : batch_state) (tbl t : Table) (id doc_id : N) (r : Row).

Lemma process_row_other now_ st st' doc_id url id :
  process_row W cfg now_ st (doc_id, url) = inr st' → id <> doc_id →
  table st' !! id = table st !! id.
Proof.
  intros E Hne.
  destruct (process_row_cases W cfg now_ st st' doc_id url E)
    as [[err ->]|[[-> _]|(r & data & m & text & sha & _ & _ & ->)]];
    cbn [table].
  - by rewrite lookup_alter_ne.
  - done.
  - by rewrite lookup_insert_ne.
Qed.

(** A field that neither SET list assigns is kept by every turn. *)
Lemma process_row_keeps {A} (g : Row → A) now_ st st' row id :
  (∀ err r, g (failure_row err r) = g r) →
  (∀ now_ text m data sha r, g (success_row now_ text m data sha r) = g r) →
  process_row W cfg now_ st row = inr st' →
  g <$> table st' !! id = g <$> table st !! id.
Proof.
  intros Hf Hs E. destruct row as [doc_id url].
  destruct (decide (id = doc_id)) as [->|Hne];
    [|by rewrite (process_row_other _ _ _ _ _ _ E Hne)].
  destruct (process_row_cases W cfg now_ st st' doc_id url E)
    as [[err ->]|[[-> _]|(r & data & m & text & sha & Hr & _ & ->)]];
    cbn [table].
  - rewrite lookup_alter_eq. destruct (table st !! doc_id); simpl; [|done].
    by rewrite Hf.
  - done.
  - rewrite lookup_insert_eq, Hr. simpl. by rewrite Hs.
Qed.

Lemma process_rows_invariant (P : Table → Prop) now_ rows st st' :
  (∀ st st' row, P (table st) → process_row W cfg now_ st row = inr st' →
                 P (table st')) →
  P (table st) → process_rows W cfg now_ st rows = inr st' → P (table st').
Proof.
  intros HP. revert st. induction rows as [|row rows IH]; intros st HPst;
    cbn [process_rows].
  - by intros [= <-].
  - destruct (process_row W cfg now_ st row) as [e|st1] eqn:E1; [done|].
    apply IH. by eapply HP.
Qed.

Lemma process_once_invariant (P : Table → Prop) batch_no tbl tbl' counts :
  (∀ now_ st st' row, P (table st) → process_row W cfg now_ st row = inr st' →
                      P (table st')) →
  P tbl → process_once W cfg me batch_no tbl = inr (tbl', counts) → P tbl'.
Proof.
  intros HP Ht. unfold process_once.
  destruct (fetch_batch _ _ _ _) as [e|[rows locks']]; [done|].
  destruct rows as [|row rows]; [by intros [= <- _]|].
  destruct (process_rows _ _ _ _ _) as [e|st] eqn:EP; [done|].
  intros [= <- _].
  by apply (process_rows_invariant P _ _
              {| table := tbl; success := 0; failures := 0 |} _
              (HP (now W batch_no)) Ht EP).
Qed.

Lemma main_loop_invariant (P : Table → Prop) fuel tbl bn tr ts tf sizes res :
  (∀ batch_no t t' counts, P t →
     process_once W cfg me batch_no t = inr (t', counts) → P t') →
  P tbl →
  main_loop W cfg me fuel tbl bn tr ts tf sizes = Some (inr res) →
  P (final_table res).
Proof.
  intros HP. revert tbl bn tr ts tf sizes.
  induction fuel as [|fuel IH]; intros tbl bn tr ts tf sizes Ht; [done|].
  cbn [main_loop].
  destruct (process_once W cfg me (bn + 1) tbl)
    as [e|[tbl' [[n s] f]]] eqn:EP; [done|].
  pose proof (HP _ _ _ _ Ht EP) as Ht'.
  destruct (n =? 0); [by intros [= <-]|].
  destruct (n <? BATCH_SIZE cfg); [by intros [= <-]|].
  by apply IH.
Qed.

Lemma process_rows_other now_ rows st st' id :
  process_rows W cfg now_ st rows = inr st' → id ∉ ids rows →
  table st' !! id = table st !! id.
Proof.
  revert st. induction rows as [|[doc_id url] rows IH]; intros st;
    cbn [process_rows].
  - by intros [= <-].
  - destruct (process_row W cfg now_ st (doc_id, url)) as [e|st1] eqn:E1;
      [done|].
    intros E Hid. simpl in Hid. apply not_elem_of_cons in Hid as [Hne Hid].
    rewrite (IH _ E Hid). by eapply process_row_other.
Qed.

Lemma claimed_eligible locks0 tbl rows locks' id :
  fetch_batch cfg me locks0 tbl = inr (rows, locks') → id ∈ ids rows →
  ∃ r, tbl !! id = Some r ∧ eligible cfg r = true.
Proof.
  intros (l & Hs & -> & _)%fetch_batch_rows. rewrite ids_select.
  intros [[i r] [-> Hp]]%list_elem_of_fmap. exists r.
  apply (candidates_elem cfg tbl (i, r)). by eapply elem_of_sublist.
Qed.

(** A committed batch leaves the rows it did not claim as they were. *)
Lemma process_once_unclaimed batch_no tbl tbl' counts id :
  process_once W cfg me batch_no tbl = inr (tbl', counts) →
  (∀ r, tbl !! id = Some r → eligible cfg r = false) →
  tbl' !! id = tbl !! id.
Proof.
  unfold process_once.
  destruct (fetch_batch _ _ _ _) as [e|[rows locks']] eqn:EF; [done|].
  intros E Hin.
  assert (Hid : id ∉ ids rows).
  { intros Hid. destruct (claimed_eligible _ _ _ _ _ EF Hid) as (r & Hr & He).
    by rewrite (Hin r Hr) in He. }
  destruct rows as [|row rows]; [by injection E as <- _|].
  destruct (process_rows _ _ _ _ _) as [e|st] eqn:EP; [done|].
  injection E as <- _. by rewrite (process_rows_other _ _ _ _ _ EP Hid).
Qed.

Lemma process_row_counts now_ st st' row :
  process_row W cfg now_ st row = inr st' →
  success st' + failures st' = success st + failures st + 1
  ∧ success st <= success st' ∧ failures st <= failures st'.
Proof.
  destruct row as [doc_id url]. intros E.
  destruct (process_row_cases W cfg now_ st st' doc_id url E)
    as [[err ->]|[[-> _]|(r & data & m & text & sha & _ & _ & ->)]];
    simpl; lia.
Qed.

Lemma process_rows_counts now_ rows st st' :
  process_rows W cfg now_ st rows = inr st' →
  success st' + failures st'
  = success st + failures st + Z.of_nat (length rows)
  ∧ success st <= success st' ∧ failures st <= failures st'.
Proof.
  revert st. induction rows as [|row rows IH]; intros st; cbn [process_rows].
  - intros [= <-]. simpl. lia.
  - destruct (process_row W cfg now_ st row) as [e|st1] eqn:E1; [done|].
    intros E. apply IH in E. apply process_row_counts in E1.
    cbn [length]. lia.
Qed.

Lemma process_once_counts_aux batch_no tbl tbl' n s f :
  process_once W cfg me batch_no tbl = inr (tbl', (n, s, f)) →
  s + f = n ∧ 0 <= s ∧ 0 <= f.
Proof.
  unfold process_once.
  destruct (fetch_batch _ _ _ _) as [e|[rows locks']]; [done|].
  destruct rows as [|row rows]; [intros [= <- <- <- <-]; lia|].
  destruct (process_rows _ _ _ _ _) as [e|st] eqn:EP; [done|].
  intros [= <- <- <- <-]. apply process_rows_counts in EP. simpl in EP.
  cbn [length]. lia.
Qed.

Lemma sum_Z_snoc l x : sum_Z (l ++ [x]) = sum_Z l + x.
Proof. induction l as [|y l IH]; simpl; [lia|]. rewrite IH. lia. Qed.

Lemma main_loop_totals fuel tbl bn tr ts tf sizes res :
  tr = sum_Z sizes → ts + tf = tr → bn = Z.of_nat (length sizes) →
  0 <= ts → 0 <= tf →
  main_loop W cfg me fuel tbl bn tr ts tf sizes = Some (inr res) →
  total_rows res = sum_Z (batch_sizes res)
  ∧ total_success res + total_failures res = total_rows res
  ∧ batch_no_ res = Z.of_nat (length (batch_sizes res))
  ∧ 0 <= total_success res ∧ 0 <= total_failures res.
Proof.
  revert tbl bn tr ts tf sizes.
  induction fuel as [|fuel IH]; intros tbl bn tr ts tf sizes H1 H2 H3 H4 H5;
    [done|].
  cbn [main_loop].
  destruct (process_once W cfg me (bn + 1) tbl)
    as [e|[tbl' [[n s] f]]] eqn:EP; [done|].
  apply process_once_counts_aux in EP.
  assert (Hlen : bn + 1 = Z.of_nat (length (sizes ++ [n]))).
  { rewrite length_app. simpl. lia. }
  destruct (Z.eqb_spec n 0) as [->|Hn0].
  { intros [= <-]. simpl. rewrite sum_Z_snoc. repeat split; try done; lia. }
  destruct (n <? BATCH_SIZE cfg).
  { intros [= <-]. simpl. rewrite sum_Z_snoc. repeat split; try done; lia. }
  apply IH; try done; rewrite ?sum_Z_snoc; lia.
Qed.

Lemma main_loop_work fuel tbl bn tr ts tf sizes res :
  main_loop W cfg me fuel tbl bn tr ts tf sizes = Some (inr res) →
  total_rows res - tr <= Z.of_nat (work_left cfg tbl)
  ∧ batch_no_ res - bn <= Z.of_nat (work_left cfg tbl) + 1.
Proof.
  revert tbl bn tr ts tf sizes.
  induction fuel as [|fuel IH]; intros tbl bn tr ts tf sizes; [done|].
  cbn [main_loop].
  destruct (process_once W cfg me (bn + 1) tbl)
    as [e|[tbl' [[n s] f]]] eqn:EP; [done|].
  pose proof (process_once_size _ _ _ _ _ _ _ _ _ EP) as Hn.
  apply process_once_work in EP.
  destruct (Z.eqb_spec n 0) as [->|Hn0].
  { intros [= <-]. simpl. lia. }
  destruct (n <? BATCH_SIZE cfg).
  { intros [= <-]. simpl. lia. }
  intros E. apply IH in E. lia.
Qed.

End BatchProperties.

Section RunProperties.

Variable W : World.
Variable cfg : Settings.
Variable me : nat.
Implicit Types (st : batch_state) (tbl t : Table) (id doc_id : N) (r : Row).

(** X15: a download or an extraction that raises is recorded as a failure of
    the row when the failure write goes through: [last_error] is the name
    of the exception, a colon and its message, cut to 800 characters,
    [process_attempts] is one more, [processed] is false, the failure
    counter is one more; the other fields of the row and the other rows
    are as before.  When the store refuses the failure write, its
    exception ends the turn: no [try] is around that write. *)
Theorem process_row_records_error now_ st doc_id url r e :
  fetch_and_extract W cfg url = inl e →
  table st !! doc_id = Some r →
  (∀ tbl1,
     mark_failure W (table st) doc_id
       (type_name (exn_type e) ++ str ": " ++ exn_msg e) = inr tbl1 →
     ∃ r1,
       process_row W cfg now_ st (doc_id, url)
       = inr {| table := tbl1; success := success st;
                failures := failures st + 1 |}
       ∧ tbl1 !! doc_id = Some r1
       ∧ last_error r1
         = Some (take 800 (type_name (exn_type e) ++ str ": " ++ exn_msg e))
       ∧ process_attempts r1 = process_attempts r + 1
       ∧ processed r1 = Some false
       ∧ (raw_text r1, sha256 r1, processed_at r1, downloaded_at r1,
          bytes r1, mime r1, filename r1, pdf_url r1)
         = (raw_text r, sha256 r, processed_at r, downloaded_at r,
            bytes r, mime r, filename r, pdf_url r)
       ∧ ∀ id, id <> doc_id → tbl1 !! id = table st !! id)
  ∧ (∀ e',
       mark_failure W (table st) doc_id
         (type_name (exn_type e) ++ str ": " ++ exn_msg e) = inl e' →
       process_row W cfg now_ st (doc_id, url) = inl e').
Proof.
  intros HF Hr. split.
  - intros tbl1 HM. eexists. split.
    { unfold process_row. rewrite HF. by apply record_failure_accepted. }
    apply mark_failure_inr in HM as ->.
    split; [by rewrite lookup_alter_eq, Hr|]. cbn [failure_row last_error
      process_attempts processed raw_text sha256 processed_at downloaded_at
      bytes mime filename pdf_url].
    repeat (split; [done|]). intros id Hid. by rewrite lookup_alter_ne.
  - intros e' HM. unfold process_row. rewrite HF.
    by apply record_failure_refused.
Qed.

(** X16: a row whose download and extraction go through is written, when the
    success write goes through, with the extracted text, the number of
    bytes downloaded, the type the download found and the digest of those
    bytes, and counted as a success. *)
Theorem process_row_writes_download now_ st doc_id u r data m text
    (tbl1 : Table) :
  download_pdf W cfg u = inr (data, m) →
  extract_text W data = inr text →
  table st !! doc_id = Some r →
  mark_success W now_ (table st) doc_id text m data (sha256_hexdigest W data)
  = inr tbl1 →
  ∃ r1,
    process_row W cfg now_ st (doc_id, Some u)
    = inr {| table := tbl1; success := success st + 1;
             failures := failures st |}
    ∧ tbl1 !! doc_id = Some r1
    ∧ raw_text r1 = Some text
    ∧ bytes r1 = Some (Z.of_nat (length data))
    ∧ mime r1 = meta_mime m
    ∧ sha256 r1 = Some (sha256_hexdigest W data)
    ∧ processed r1 = Some true
    ∧ ∀ id, id <> doc_id → tbl1 !! id = table st !! id.
Proof.
  intros HD HE Hr HM. eexists. split.
  { unfold process_row, fetch_and_extract.
    rewrite HD, HE. unfold begin_nested, sha256_hex. by rewrite HM. }
  apply mark_success_inr in HM. rewrite Hr in HM. destruct HM as [_ ->].
  split; [apply lookup_insert_eq|].
  cbn [success_row raw_text bytes mime sha256 processed].
  repeat (split; [done|]).
  intros id Hid. by rewrite lookup_insert_ne.
Qed.

(** X17: an empty body is not an error: when the success write goes through,
    the row is written as processed, with an empty text and zero bytes. *)
Theorem empty_body_is_success now_ st doc_id u r m (tbl1 : Table) :
  download_pdf W cfg u = inr ([], m) →
  table st !! doc_id = Some r →
  mark_success W now_ (table st) doc_id [] m [] (sha256_hexdigest W [])
  = inr tbl1 →
  ∃ r1,
    process_row W cfg now_ st (doc_id, Some u)
    = inr {| table := tbl1; success := success st + 1;
             failures := failures st |}
    ∧ tbl1 !! doc_id = Some r1
    ∧ processed r1 = Some true
    ∧ raw_text r1 = Some []
    ∧ bytes r1 = Some 0.
Proof.
  intros HD Hr HM. eexists. split.
  { unfold process_row, fetch_and_extract.
    rewrite HD. cbn [extract_text]. unfold begin_nested, sha256_hex.
    by rewrite HM. }
  apply mark_success_inr in HM. rewrite Hr in HM. destruct HM as [_ ->].
  split; [apply lookup_insert_eq|]. done.
Qed.

(** X29: a success write the store refuses with a SQLAlchemyError other than
    IntegrityError (a DataError: a text with U+0000, a number that does
    not fit its [int] column) is rolled back, and when the failure write
    goes through the row is recorded as a failure: [last_error] is
    ["SQLAlchemyError: "] and the text of the error, cut to 800
    characters, [process_attempts] is one more, [processed] is false, and
    nothing of the success write is kept. *)
Theorem refused_success_is_recorded now_ st doc_id url r data m text sha e
    name (tbl1 : Table) :
  fetch_and_extract W cfg url = inr (data, m, text, sha) →
  table st !! doc_id = Some r →
  mark_success W now_ (table st) doc_id text m data sha = inl e →
  exn_type e = SQLAlchemyError name →
  mark_failure W (table st) doc_id (str "SQLAlchemyError: " ++ exn_msg e)
  = inr tbl1 →
  ∃ r1,
    process_row W cfg now_ st (doc_id, url)
    = inr {| table := tbl1; success := success st;
             failures := failures st + 1 |}
    ∧ tbl1 !! doc_id = Some r1
    ∧ last_error r1 = Some (take 800 (str "SQLAlchemyError: " ++ exn_msg e))
    ∧ process_attempts r1 = process_attempts r + 1
    ∧ processed r1 = Some false
    ∧ (raw_text r1, sha256 r1, processed_at r1, downloaded_at r1,
       bytes r1, mime r1, filename r1, pdf_url r1)
      = (raw_text r, sha256 r, processed_at r, downloaded_at r,
         bytes r, mime r, filename r, pdf_url r)
    ∧ ∀ id, id <> doc_id → tbl1 !! id = table st !! id.
Proof.
  intros HF Hr HS HT HM. eexists. split.
  { unfold process_row. rewrite HF. unfold begin_nested. rewrite HS, HT.
    by rewrite (record_failure_accepted W _ tbl1). }
  apply mark_failure_inr in HM as ->.
  split; [by rewrite lookup_alter_eq, Hr|]. cbn [failure_row last_error
    process_attempts processed raw_text sha256 processed_at downloaded_at
    bytes mime filename pdf_url].
  repeat (split; [done|]). intros id Hid. by rewrite lookup_alter_ne.
Qed.

(** X18: every row of a committed batch is counted once, as a success or as a
    failure. *)
Theorem process_once_counts batch_no tbl tbl' n s f :
  process_once W cfg me batch_no tbl = inr (tbl', (n, s, f)) →
  s + f = n ∧ 0 <= s ∧ 0 <= f.
Proof. apply process_once_counts_aux. Qed.

(** X19: the totals of a run: [total_rows] is the sum of the batch sizes,
    successes and failures add up to it, and [batch_no] is the number of
    claims made. *)
Theorem main_totals fuel tbl res :
  main W cfg me fuel tbl = Some (inr res) →
  total_rows res = sum_Z (batch_sizes res)
  ∧ total_success res + total_failures res = total_rows res
  ∧ batch_no_ res = Z.of_nat (length (batch_sizes res))
  ∧ 0 <= total_success res ∧ 0 <= total_failures res.
Proof. apply main_loop_totals; done. Qed.

(** X20: when no row is eligible the run makes one claim, which returns
    nothing, and leaves the table as it is. *)
Theorem main_nothing_eligible fuel tbl :
  0 <= BATCH_SIZE cfg →
  (∀ id r, tbl !! id = Some r → eligible cfg r = false) →
  main W cfg me (S fuel) tbl
  = Some (inr {| final_table := tbl; batch_no_ := 1; total_rows := 0;
                 total_success := 0; total_failures := 0;
                 batch_sizes := [0] |}).
Proof.
  intros HB HN.
  assert (Hc : candidates cfg tbl = []).
  { apply elem_of_nil_inv. intros [i r] Hp.
    apply candidates_elem in Hp as [Hr He]. simpl in *.
    by rewrite (HN i r Hr) in He. }
  destruct (fetch_batch_first_rows_aux cfg me (row_locks W 1) tbl HB)
    as [locks' EF].
  unfold claimable in EF. rewrite Hc in EF. simpl in EF.
  rewrite take_nil in EF.
  unfold main. cbn [main_loop]. unfold process_once.
  change (0 + 1) with 1. by rewrite EF.
Qed.

(** X21: a run does not touch a row that is not eligible when it starts, nor
    create a row. *)
Theorem run_leaves_ineligible_rows fuel tbl res id :
  main W cfg me fuel tbl = Some (inr res) →
  (∀ r, tbl !! id = Some r → eligible cfg r = false) →
  final_table res !! id = tbl !! id.
Proof.
  intros E Hin.
  apply (main_loop_invariant W cfg me (fun t => t !! id = tbl !! id)
           _ _ _ _ _ _ _ _ (fun _ t t' counts Ht EP =>
              eq_trans (process_once_unclaimed W cfg me _ t t' counts id EP
                          (fun r Hr => Hin r (eq_trans (eq_sym Ht) Hr))) Ht)
           eq_refl E).
Qed.

(** X22: a run keeps the set of rows and the [pdf_url] of every row. *)
Theorem run_keeps_ids_and_urls fuel tbl res :
  main W cfg me fuel tbl = Some (inr res) →
  dom (final_table res) = dom tbl
  ∧ ∀ id, pdf_url <$> final_table res !! id = pdf_url <$> tbl !! id.
Proof.
  intros E.
  assert (H : ∀ id, pdf_url <$> final_table res !! id = pdf_url <$> tbl !! id).
  { refine (main_loop_invariant W cfg me
              (fun t => ∀ id, pdf_url <$> t !! id = pdf_url <$> tbl !! id)
              _ _ _ _ _ _ _ _ _ _ E); [|done].
    intros bn t t' counts Ht EP.
    refine (process_once_invariant W cfg me
              (fun t => ∀ id, pdf_url <$> t !! id = pdf_url <$> tbl !! id)
              _ _ _ _ _ Ht EP).
    intros now_ st st' row Hst ER id.
    rewrite <- Hst. by apply (process_row_keeps W cfg pdf_url _ _ _ _ id) in ER. }
  split; [|done]. apply set_eq. intros id. rewrite !elem_of_dom.
  specialize (H id). rewrite <- !fmap_is_Some with (f := pdf_url).
  by rewrite H.
Qed.

(** X23: a run never takes [process_attempts] of a row above the ceiling, or
    above what it was at the start. *)
Theorem run_respects_ceiling fuel tbl res id r :
  main W cfg me fuel tbl = Some (inr res) →
  tbl !! id = Some r →
  ∃ r', final_table res !! id = Some r'
        ∧ process_attempts r'
          <= Z.max (process_attempts r) (MAX_ATTEMPTS cfg).
Proof.
  intros E Hr.
  assert (F : ∃ a, attempts_of (final_table res) id = Some a
                   ∧ a <= Z.max (process_attempts r) (MAX_ATTEMPTS cfg)).
  2:{ destruct F as (a & Ha & Hle). unfold attempts_of in Ha.
      destruct (final_table res !! id) as [r'|]; [|done].
      injection Ha as <-. by exists r'. }
  refine (main_loop_invariant W cfg me
            (fun t => ∃ a, attempts_of t id = Some a
                           ∧ a <= Z.max (process_attempts r) (MAX_ATTEMPTS cfg))
            _ _ _ _ _ _ _ _ _ _ E).
  - intros bn t t' counts (a & Ha & Hle) EP.
    pose proof EP as (rows & locks' & EF & HA)%process_once_attempts.
    rewrite HA, Ha. simpl. eexists. split; [done|].
    case_bool_decide as Hid; [|lia].
    destruct (claimed_eligible cfg me _ _ _ _ _ EF Hid) as (r0 & Hr0 & He).
    apply eligible_spec in He as (_ & _ & Hlt).
    unfold attempts_of in Ha. rewrite Hr0 in Ha. injection Ha as <-. lia.
  - exists (process_attempts r). unfold attempts_of. rewrite Hr.
    split; [done|lia].
Qed.

(** X24: a run processes no more rows than the eligible rows have attempts
    left, and makes at most one claim more than that. *)
Theorem run_bounded_by_work_left fuel tbl res :
  main W cfg me fuel tbl = Some (inr res) →
  total_rows res <= Z.of_nat (work_left cfg tbl)
  ∧ batch_no_ res <= Z.of_nat (work_left cfg tbl) + 1.
Proof. intros E. apply main_loop_work in E. lia. Qed.

Lemma sha256_unique_row now_ st st' row :
  sha256_unique (table st) → process_row W cfg now_ st row = inr st' →
  sha256_unique (table st').
Proof.
  destruct row as [doc_id url]. intros HU E.
  destruct (process_row_cases W cfg now_ st st' doc_id url E)
    as [[err ->]|[[-> _]|(r & data & m & text & sha & Hr & Hs & ->)]];
    cbn [table]; [|done|].
  - intros i j ri rj s Hi Hj Hsi Hsj.
    assert (K : ∀ k rk, alter (failure_row (take 800 err)) doc_id (table st)
                        !! k = Some rk →
                ∃ r0, table st !! k = Some r0 ∧ sha256 r0 = sha256 rk).
    { intros k rk. destruct (decide (k = doc_id)) as [->|Hne].
      - rewrite lookup_alter_eq. destruct (table st !! doc_id); [|done].
        intros [= <-]. eauto.
      - rewrite lookup_alter_ne by done. eauto. }
    destruct (K i ri Hi) as (ri0 & Hi0 & Ei), (K j rj Hj) as (rj0 & Hj0 & Ej).
    apply (HU i j ri0 rj0 s); congruence.
  - intros i j ri rj s Hi Hj Hsi Hsj.
    assert (Hfree : ∀ k rk, k <> doc_id → table st !! k = Some rk →
                            sha256 rk <> Some sha).
    { intros k rk Hne Hk Hsk.
      assert (sha256_taken (table st) doc_id sha = true)
        by (apply sha256_taken_spec; eauto).
      congruence. }
    destruct (decide (i = doc_id)) as [->|Hi'],
             (decide (j = doc_id)) as [->|Hj']; [done| | |].
    + rewrite lookup_insert_eq in Hi. injection Hi as <-.
      rewrite lookup_insert_ne in Hj by done. simpl in Hsi.
      destruct (Hfree j rj Hj' Hj). congruence.
    + rewrite lookup_insert_eq in Hj. injection Hj as <-.
      rewrite lookup_insert_ne in Hi by done. simpl in Hsj.
      destruct (Hfree i ri Hi' Hi). congruence.
    + rewrite lookup_insert_ne in Hi, Hj by done. by apply (HU i j ri rj s).
Qed.

(** X25: a run keeps the fingerprints unique: when no two rows carry the same
    [sha256] at the start, none do at the end. *)
Theorem run_keeps_sha256_unique fuel tbl res :
  sha256_unique tbl →
  main W cfg me fuel tbl = Some (inr res) →
  sha256_unique (final_table res).
Proof.
  intros HU E.
  refine (main_loop_invariant W cfg me sha256_unique _ _ _ _ _ _ _ _ _ HU E).
  intros bn t t' counts Ht EP.
  refine (process_once_invariant W cfg me sha256_unique _ _ _ _ _ Ht EP).
  intros now_ st st' row. apply sha256_unique_row.
Qed.

Lemma processed_complete_row now_ st st' row :
  processed_complete (table st) → process_row W cfg now_ st row = inr st' →
  processed_complete (table st').
Proof.
  destruct row as [doc_id url]. intros HC E.
  destruct (process_row_cases W cfg now_ st st' doc_id url E)
    as [[err ->]|[[-> _]|(r & data & m & text & sha & Hr & Hs & ->)]];
    cbn [table]; [|done|].
  - intros i ri. destruct (decide (i = doc_id)) as [->|Hne].
    + rewrite lookup_alter_eq. destruct (table st !! doc_id); [|done].
      by intros [= <-].
    + rewrite lookup_alter_ne by done. apply HC.
  - intros i ri. destruct (decide (i = doc_id)) as [->|Hne].
    + rewrite lookup_insert_eq. by intros [= <-].
    + rewrite lookup_insert_ne by done. apply HC.
Qed.

(** X26: a run keeps the processed rows complete: when every row marked
    processed has a text and a fingerprint at the start, so it is at the
    end. *)
Theorem run_keeps_processed_complete fuel tbl res :
  processed_complete tbl →
  main W cfg me fuel tbl = Some (inr res) →
  processed_complete (final_table res).
Proof.
  intros HU E.
  refine (main_loop_invariant W cfg me processed_complete _ _ _ _ _ _ _ _ _ HU E).
  intros bn t t' counts Ht EP.
  refine (process_once_invariant W cfg me processed_complete _ _ _ _ _ Ht EP).
  intros now_ st st' row. apply processed_complete_row.
Qed.

End RunProperties.

Lemma process_row_records_error_witness :
  ∃ st1 r1,
    process_row Cases.gone_world Sample.cfg 1001
      {| table := Sample.two_rows; success := 0; failures := 0 |}
      (1%N, Some (str "http://host/a")) = inr st1
    ∧ failures st1 = 1
    ∧ table st1 !! 1%N = Some r1
    ∧ process_attempts r1 = 1.
Proof.
  destruct (fetch_and_extract Cases.gone_world Sample.cfg
              (Some (str "http://host/a"))) as [e|x] eqn:HF.
  2:{ vm_compute in HF. discriminate HF. }
  destruct (mark_failure Cases.gone_world Sample.two_rows 1
              (type_name (exn_type e) ++ str ": " ++ exn_msg e))
    as [e'|tbl1] eqn:HM.
  { vm_compute in HF. injection HF as <-. vm_compute in HM. discriminate HM. }
  destruct (proj1 (process_row_records_error Cases.gone_world Sample.cfg 1001
                     {| table := Sample.two_rows; success := 0; failures := 0 |}
                     1 (Some (str "http://host/a"))
                     (Sample.fresh_row (str "http://host/a")) e HF eq_refl)
              tbl1 HM)
    as (r1 & E & Hl & _ & Ha & _).
  eexists _, r1. split; [exact E|]. split; [reflexivity|].
  split; [exact Hl|exact Ha].
Defined.

Lemma process_row_writes_download_witness :
  ∃ st1 r1,
    process_row Sample.same_bytes_world Sample.cfg 1001
      {| table := Sample.two_rows; success := 0; failures := 0 |}
      (1%N, Some (str "http://host/a")) = inr st1
    ∧ success st1 = 1
    ∧ table st1 !! 1%N = Some r1
    ∧ bytes r1 = Some 4
    ∧ sha256 r1 = Some (Sample.digest Sample.tiny_pdf).
Proof.
  edestruct (process_row_writes_download Sample.same_bytes_world Sample.cfg
               1001 {| table := Sample.two_rows; success := 0; failures := 0 |}
               1 (str "http://host/a") (Sample.fresh_row (str "http://host/a")))
    as (r1 & E & Hl & _ & Hb & _ & Hsha & _).
  - vm_compute. reflexivity.
  - vm_compute. reflexivity.
  - reflexivity.
  - vm_compute. reflexivity.
  - eexists _, r1. split; [exact E|]. split; [reflexivity|].
    split; [exact Hl|]. split; [exact Hb|exact Hsha].
Defined.

Lemma empty_body_is_success_witness :
  ∃ st1 r1,
    process_row Cases.empty_body_world Sample.cfg 1001
      {| table := Sample.two_rows; success := 0; failures := 0 |}
      (1%N, Some (str "http://host/a")) = inr st1
    ∧ table st1 !! 1%N = Some r1
    ∧ processed r1 = Some true
    ∧ raw_text r1 = Some [].
Proof.
  edestruct (empty_body_is_success Cases.empty_body_world Sample.cfg 1001
               {| table := Sample.two_rows; success := 0; failures := 0 |}
               1 (str "http://host/a") (Sample.fresh_row (str "http://host/a")))
    as (r1 & E & Hl & Hp & Ht & _).
  - vm_compute. reflexivity.
  - reflexivity.
  - vm_compute. reflexivity.
  - eexists _, r1. split; [exact E|]. split; [exact Hl|].
    split; [exact Hp|exact Ht].
Defined.

Lemma refused_success_is_recorded_witness :
  ∃ st1 r1,
    process_row Cases.nul_text_world Sample.cfg 1001
      {| table := Sample.two_rows; success := 0; failures := 0 |}
      (1%N, Some (str "http://host/a")) = inr st1
    ∧ failures st1 = 1
    ∧ table st1 !! 1%N = Some r1
    ∧ processed r1 = Some false
    ∧ raw_text r1 = None.
Proof.
  edestruct (refused_success_is_recorded Cases.nul_text_world Sample.cfg 1001
               {| table := Sample.two_rows; success := 0; failures := 0 |}
               1 (Some (str "http://host/a"))
               (Sample.fresh_row (str "http://host/a")))
    as (r1 & E & Hl & _ & _ & Hp & Hk & _).
  - vm_compute. reflexivity.
  - reflexivity.
  - vm_compute. reflexivity.
  - reflexivity.
  - vm_compute. reflexivity.
  - eexists _, r1. split; [exact E|]. split; [reflexivity|].
    split; [exact Hl|]. split; [exact Hp|]. by injection Hk as ->.
Defined.

Lemma process_once_counts_witness :
  ∃ tbl' n s f,
    process_once Sample.same_bytes_world Sample.cfg 1 1 Sample.two_rows
    = inr (tbl', (n, s, f))
    ∧ s + f = n.
Proof.
  destruct (process_once Sample.same_bytes_world Sample.cfg 1 1 Sample.two_rows)
    as [e|[tbl' [[n s] f]]] eqn:E.
  - vm_compute in E. discriminate E.
  - exists tbl', n, s, f. split; [done|].
    apply (process_once_counts _ _ _ _ _ _ _ _ _ E).
Defined.

Lemma main_totals_witness :
  ∃ res,
    main Sample.same_bytes_world Sample.cfg 1 3 Sample.two_rows
    = Some (inr res)
    ∧ total_rows res = sum_Z (batch_sizes res)
    ∧ total_success res + total_failures res = total_rows res.
Proof.
  destruct (main Sample.same_bytes_world Sample.cfg 1 3 Sample.two_rows)
    as [[e|res]|] eqn:E.
  - vm_compute in E. discriminate E.
  - exists res. split; [done|].
    destruct (main_totals _ _ _ _ _ _ E) as (H1 & H2 & _). auto.
  - vm_compute in E. discriminate E.
Defined.

Lemma main_nothing_eligible_witness :
  main Sample.same_bytes_world Sample.cfg 1 1 Cases.all_done
  = Some (inr {| final_table := Cases.all_done; batch_no_ := 1;
                 total_rows := 0; total_success := 0; total_failures := 0;
                 batch_sizes := [0] |}).
Proof.
  apply main_nothing_eligible.
  - simpl. lia.
  - intros id r Hr. unfold Cases.all_done in Hr.
    apply lookup_singleton_Some in Hr as [<- <-]. reflexivity.
Defined.

Lemma run_leaves_ineligible_rows_witness :
  ∃ res,
    main Sample.same_bytes_world Sample.cfg 1 3 Cases.mixed = Some (inr res)
    ∧ final_table res !! 3%N = Some (Sample.done_row (str "http://host/c")).
Proof.
  destruct (main Sample.same_bytes_world Sample.cfg 1 3 Cases.mixed)
    as [[e|res]|] eqn:E.
  - vm_compute in E. discriminate E.
  - exists res. split; [done|].
    rewrite (run_leaves_ineligible_rows _ _ _ _ _ _ 3%N E).
    + reflexivity.
    + intros r Hr. unfold Cases.mixed in Hr. rewrite lookup_insert_eq in Hr.
      injection Hr as <-. reflexivity.
  - vm_compute in E. discriminate E.
Defined.

Lemma run_keeps_ids_and_urls_witness :
  ∃ res,
    main Sample.same_bytes_world Sample.cfg 1 3 Cases.mixed = Some (inr res)
    ∧ dom (final_table res) = dom Cases.mixed.
Proof.
  destruct (main Sample.same_bytes_world Sample.cfg 1 3 Cases.mixed)
    as [[e|res]|] eqn:E.
  - vm_compute in E. discriminate E.
  - exists res. split; [done|].
    apply (run_keeps_ids_and_urls _ _ _ _ _ _ E).
  - vm_compute in E. discriminate E.
Defined.

Lemma run_respects_ceiling_witness :
  ∃ res r',
    main Sample.same_bytes_world Sample.cfg 1 3 Cases.mixed = Some (inr res)
    ∧ final_table res !! 2%N = Some r'
    ∧ process_attempts r' <= 5.
Proof.
  destruct (main Sample.same_bytes_world Sample.cfg 1 3 Cases.mixed)
    as [[e|res]|] eqn:E.
  - vm_compute in E. discriminate E.
  - destruct (run_respects_ceiling _ _ _ _ _ _ 2%N
                (Sample.fresh_row (str "http://host/b")) E eq_refl)
      as (r' & Hr & Hle).
    exists res, r'. auto.
  - vm_compute in E. discriminate E.
Defined.

Lemma run_bounded_by_work_left_witness :
  ∃ res,
    main Sample.same_bytes_world Sample.cfg 1 3 Sample.two_rows
    = Some (inr res)
    ∧ total_rows res <= Z.of_nat (work_left Sample.cfg Sample.two_rows).
Proof.
  destruct (main Sample.same_bytes_world Sample.cfg 1 3 Sample.two_rows)
    as [[e|res]|] eqn:E.
  - vm_compute in E. discriminate E.
  - exists res. split; [done|].
    apply (run_bounded_by_work_left _ _ _ _ _ _ E).
  - vm_compute in E. discriminate E.
Defined.

Lemma run_keeps_sha256_unique_witness :
  ∃ res,
    main Sample.same_bytes_world Sample.cfg 1 3 Sample.two_rows
    = Some (inr res)
    ∧ sha256_unique (final_table res).
Proof.
  destruct (main Sample.same_bytes_world Sample.cfg 1 3 Sample.two_rows)
    as [[e|res]|] eqn:E.
  - vm_compute in E. discriminate E.
  - exists res. split; [done|].
    refine (run_keeps_sha256_unique _ _ _ _ _ _ _ E).
    intros i j ri rj sha Hi Hj Hsi Hsj. unfold Sample.two_rows in Hi.
    apply elem_of_list_to_map_2 in Hi.
    apply elem_of_cons in Hi as [Hi|Hi];
      [injection Hi as -> ->; discriminate Hsi|].
    apply elem_of_cons in Hi as [Hi|Hi];
      [injection Hi as -> ->; discriminate Hsi|].
    by apply elem_of_nil in Hi.
  - vm_compute in E. discriminate E.
Defined.

Lemma run_keeps_processed_complete_witness :
  ∃ res,
    main Sample.same_bytes_world Sample.cfg 1 3 Sample.two_rows
    = Some (inr res)
    ∧ processed_complete (final_table res).
Proof.
  destruct (main Sample.same_bytes_world Sample.cfg 1 3 Sample.two_rows)
    as [[e|res]|] eqn:E.
  - vm_compute in E. discriminate E.
  - exists res. split; [done|].
    refine (run_keeps_processed_complete _ _ _ _ _ _ _ E).
    intros i r Hi Hp. unfold Sample.two_rows in Hi.
    apply elem_of_list_to_map_2 in Hi.
    apply elem_of_cons in Hi as [Hi|Hi];
      [injection Hi as -> ->; discriminate Hp|].
    apply elem_of_cons in Hi as [Hi|Hi];
      [injection Hi as -> ->; discriminate Hp|].
    by apply elem_of_nil in Hi.
  - vm_compute in E. discriminate E.
Defined.

(** ** The dashboard *)

Section Stats.

Implicit Types (tbl : Table) (r : Row).

Lemma sum_Z_map_add {A} (f g : A → Z) (l : list A) :
  sum_Z (map (fun x => f x + g x) l) = sum_Z (map f l) + sum_Z (map g l).
Proof. induction l as [|x l IH]; simpl; lia. Qed.

(** Counts add up row by row. *)
Lemma count_where_sum (conds : list (Row → bool)) (whole : Row → bool) tbl :
  (∀ r, sum_Z (map (fun c => indicator (c r)) conds) = indicator (whole r)) →
  sum_Z (map (fun c => count_where c tbl) conds) = count_where whole tbl.
Proof.
  intros H. unfold count_where.
  induction (map_to_list tbl) as [|[i r] l IH].
  - cbn [List.filter length]. change (Z.of_nat 0) with 0. clear H.
    unfold sum_Z. induction conds as [|c conds IHc]; [done|].
    cbn [map fold_right]. by rewrite IHc.
  - assert (E : ∀ c : Row → bool,
              Z.of_nat (length (List.filter (fun p => c (snd p)) ((i, r) :: l)))
              = indicator (c r)
                + Z.of_nat (length (List.filter (fun p => c (snd p)) l))).
    { intros c. simpl. destruct (c r); simpl; lia. }
    rewrite E, <- IH, <- H, <- sum_Z_map_add.
    f_equal. apply map_ext. intros c. apply E.
Qed.

(** X27: the counts under "Process attempts" add up to the rows whose
    [process_attempts] is between 0 and 9999: each of these is in one
    bucket, a row outside is in none. *)
Theorem attempt_buckets_partition tbl :
  sum_Z (bucket_counts tbl)
  = count_where (fun r => (0 <=? process_attempts r)
                          && (process_attempts r <=? 9999)) tbl.
Proof.
  unfold bucket_counts.
  rewrite <- (count_where_sum (map in_bucket ATTEMPT_BUCKETS)), map_map; [done|].
  intros r. unfold ATTEMPT_BUCKETS, in_bucket, indicator. cbn [map sum_Z fold_right].
  change (0 =? 0) with true. change (1 =? 1) with true.
  change (2 =? 2) with true. change (3 =? 3) with true.
  change (4 =? 4) with true. change (5 =? 5) with true.
  change (6 =? 10) with false. change (11 =? 20) with false.
  change (21 =? 9999) with false. cbv iota.
  repeat match goal with
         | |- context [?a =? ?b] => destruct (Z.eqb_spec a b); try lia
         | |- context [?a <=? ?b] => destruct (Z.leb_spec a b); try lia
         end; simpl; lia.
Qed.

(** X28: the overview counts as unprocessed every row that is not marked
    processed: the rows the queue queries see ([processed = FALSE]) and
    the rows whose [processed] is null, which those queries leave out. *)
Theorem stats_unprocessed_split tbl :
  stats_unprocessed tbl
  = count_where (fun r => negb (bool_decide (processed r = Some true))) tbl
  ∧ stats_unprocessed tbl
    = stats_queued tbl
      + count_where (fun r => bool_decide (processed r = None)) tbl.
Proof.
  unfold stats_unprocessed, stats_total, stats_processed, stats_queued.
  pose proof (count_where_sum
                [fun r => bool_decide (processed r = Some true);
                 fun r => negb (bool_decide (processed r = Some true))]
                (fun _ => true) tbl) as H1.
  pose proof (count_where_sum
                [fun r => bool_decide (processed r = Some true);
                 fun r => bool_decide (processed r = Some false);
                 fun r => bool_decide (processed r = None)]
                (fun _ => true) tbl) as H2.
  simpl in H1, H2. rewrite <- H1 at 1. 2:{ intros r. by destruct (processed r) as [[|]|]. }
  rewrite <- H2. 2:{ intros r. by destruct (processed r) as [[|]|]. }
  lia.
Qed.

End Stats.
